(** * Inline-Engine: the frame scheduler and the resource heaps

    A shallow embedding of
    - [Scheduler.hpp] (namespace [inl::gxeng]): the three iterator templates
      [InjectBarriers], [CanExecuteParallel] and [UpdateResourceStates], and
      the declared life-cycle operations of the scheduler;
    - [GraphicsEngine_LL/ResourceHeap.cpp]: [CriticalBufferHeap],
      [BackBufferHeap] and [UploadHeap], with the calls of
      [GraphicsApi_D3D12/GraphicsApi.cpp] they make.

    Pointers are modelled by the number that identifies the object they point
    to, [unsigned] and [size_t] values by [N], [std::vector] by [list], a thrown
    exception by a result that carries it. *)

From stdpp Require Import base numbers option list strings gmap sorting relations.

Open Scope N_scope.

(* ===================================================================== *)
(** * Part I. Definitions *)
(* ===================================================================== *)

(** ** The graphics API layer ([gxapi]) *)

(** Modelled from the spec: [gxapi::eResourceState]. Its declaration
    ([GraphicsApi_LL/Common.hpp]) is not part of the sources; the sources name
    [COMMON], [COPY_DEST] and [COPY_SOURCE], the remaining members are the ones
    the data model lists. Two states are compatible iff they are equal. *)
Inductive eResourceState : Set :=
  | COMMON
  | COPY_SOURCE
  | COPY_DEST
  | RENDER_TARGET
  | DEPTH_READ
  | DEPTH_WRITE
  | SHADER_RESOURCE
  | UNORDERED_ACCESS
  | PRESENT.

#[global] Instance eResourceState_eq_dec : EqDecision eResourceState.
Proof. solve_decision. Defined.

(** [gxapi::eResourceBarrierSplit]; [ResourceHeap.cpp] uses [NORMAL]. *)
Inductive eResourceBarrierSplit : Set := NORMAL | BEGIN | END.

#[global] Instance eResourceBarrierSplit_eq_dec : EqDecision eResourceBarrierSplit.
Proof. solve_decision. Defined.

(** The all-subresources token. [UploadToResource] writes it as the literal
    [0xffffffff], the largest [unsigned]. *)
Definition ALL_SUBRESOURCES : N := 0xffffffff.

(** A [gxapi::IResource*]: the identity of a GPU resource. *)
Definition IResourcePtr : Set := N.

(** [gxapi::TransitionBarrier], with the fields [UploadToResource] assigns.
    The aggregate initialiser of [InjectBarriers] gives the first four in this
    order and leaves [splitMode] at its default. *)
Record TransitionBarrier : Set := mkTransitionBarrier {
  resource : IResourcePtr;
  beforeState : eResourceState;
  afterState : eResourceState;
  subResource : N;
  splitMode : eResourceBarrierSplit
}.

#[global] Instance TransitionBarrier_eq_dec : EqDecision TransitionBarrier.
Proof. solve_decision. Defined.

(** [gxapi::ResourceBarrier]: the scheduler only ever builds transitions. *)
Abbreviation ResourceBarrier := TransitionBarrier.

(** ** The resource-state table *)

(** Modelled from the spec: [MemoryObject] ([MemoryObject.hpp] is not part of
    the sources). A memory object is a handle on a GPU resource that carries
    the CPU-side shadow of the state of each of its subresources; all handles
    on one resource share that shadow. The table maps the identity of a
    resource to the states of its subresources [0 .. N-1], so that every
    subresource of every known resource has exactly one recorded state;
    [_GetResourcePtr] gives the identity of the resource. Reading or recording a state of an unknown resource or of an index outside
    [0, N) has no defined result: it is [None]. *)
Abbreviation ResourceStateTable := (gmap N (list eResourceState)).

Definition GetNumSubresources (tbl : ResourceStateTable) (r : N) : option N :=
  l ← tbl !! r; Some (N.of_nat (length l)).

Definition ReadState (tbl : ResourceStateTable) (r : N) (subresource : N)
  : option eResourceState :=
  l ← tbl !! r; l !! N.to_nat subresource.

Definition RecordState (tbl : ResourceStateTable) (r : N) (subresource : N)
    (newState : eResourceState) : option ResourceStateTable :=
  l ← tbl !! r;
  if decide (N.to_nat subresource < length l)%nat
  then Some (<[r := <[N.to_nat subresource := newState]> l]> tbl)
  else None.

(** [MemoryObject::PtrLess] and [MemoryObject::PtrGreater] order memory
    objects by the address of the resource they stand for. *)
Definition PtrLess (a b : N) : bool := a <? b.
Definition PtrGreater (a b : N) : bool := b <? a.

(** ** Usage records *)

(** The element type the three templates iterate over: they read [resource]
    (here [used_resource], the name being taken by the barrier),
    [subresource], [firstState], [lastState] and [multipleUse]. (The struct
    [Scheduler::UsedResource] itself has no [lastState] and types [firstState]
    as [float]; [InjectBarriers] assigns [it->firstState] to an
    [eResourceState], so the state enumeration is what the templates see.) *)
Record UsedResource : Set := mkUsedResource {
  used_resource : N;
  subresource : N;
  firstState : eResourceState;
  lastState : eResourceState;
  multipleUse : bool
}.

(** The order of usage lists: by resource identity. *)
Definition resource_le (a b : UsedResource) : Prop :=
  used_resource a ≤ used_resource b.

#[global] Instance resource_le_dec : RelDecision resource_le.
Proof. intros a b. unfold resource_le. apply _. Defined.

(** ** Loops that may fail *)

(** [for (x : xs) acc = body(acc, x)], stopping at the first failure. *)
Fixpoint for_each {A B : Type} (body : B → A → option B) (acc : B) (xs : list A)
  : option B :=
  match xs with
  | [] => Some acc
  | x :: xs' => acc' ← body acc x; for_each body acc' xs'
  end.

(** The indices [0, 1, .., n-1] of [for (unsigned s = 0; s < n; ++s)]. *)
Definition subresource_range (n : N) : list N :=
  N.of_nat <$> seq 0 (N.to_nat n).

(** ** [Scheduler::InjectBarriers] *)

(** The body shared by both branches: read the recorded state and push a
    transition when it differs from the target state. *)
Definition inject_subresource (tbl : ResourceStateTable) (r : N)
    (targetState : eResourceState) (barriers : list ResourceBarrier)
    (subresourceIdx : N) : option (list ResourceBarrier) :=
  sourceState ← ReadState tbl r subresourceIdx;
  if decide (sourceState ≠ targetState)
  then Some (barriers ++
               [mkTransitionBarrier r sourceState targetState subresourceIdx NORMAL])
  else Some barriers.

(** One iteration of the outer loop. The inner loop asks for the number of
    subresources at every turn; nothing in the loop changes it. *)
Definition inject_usage (tbl : ResourceStateTable) (barriers : list ResourceBarrier)
    (it : UsedResource) : option (list ResourceBarrier) :=
  let r := used_resource it in
  let targetState := firstState it in
  if decide (subresource it ≠ ALL_SUBRESOURCES)
  then inject_subresource tbl r targetState barriers (subresource it)
  else
    n ← GetNumSubresources tbl r;
    for_each (inject_subresource tbl r targetState) barriers (subresource_range n).

Definition InjectBarriers (tbl : ResourceStateTable) (usages : list UsedResource)
  : option (list ResourceBarrier) :=
  for_each (inject_usage tbl) [] usages.

(** ** [Scheduler::UpdateResourceStates] *)

(** One iteration of the outer loop; recording a state keeps the number of
    subresources, so the bound of the inner loop is the one of its first
    turn. *)
Definition update_usage (tbl : ResourceStateTable) (it : UsedResource)
  : option ResourceStateTable :=
  if decide (subresource it = ALL_SUBRESOURCES)
  then
    n ← GetNumSubresources tbl (used_resource it);
    for_each (λ tbl' s, RecordState tbl' (used_resource it) s (lastState it))
             tbl (subresource_range n)
  else RecordState tbl (used_resource it) (subresource it) (lastState it).

Definition UpdateResourceStates (tbl : ResourceStateTable)
    (usages : list UsedResource) : option ResourceStateTable :=
  for_each update_usage tbl usages.

(** ** [Scheduler::CanExecuteParallel] *)

(** The two iterators are the two remaining suffixes. The outer recursion
    advances [it1], the inner one advances [it2] alone. *)
Fixpoint CanExecuteParallel (l1 l2 : list UsedResource) {struct l1} : bool :=
  let fix walk (l2 : list UsedResource) {struct l2} : bool :=
    match l1, l2 with
    | it1 :: l1', it2 :: l2' =>
        if PtrLess (used_resource it1) (used_resource it2) then
          CanExecuteParallel l1' l2
        else if PtrGreater (used_resource it1) (used_resource it2) then
          walk l2'
        else if bool_decide (firstState it1 ≠ firstState it2)
                || multipleUse it1 || multipleUse it2 then
          false
        else
          CanExecuteParallel l1' l2'
    | _, _ => true
    end
  in walk l2.

(** ** The device behind [gxapi::IGraphicsApi] *)

Inductive eHeapType : Set := DEFAULT | UPLOAD | READBACK.
Inductive eHeapFlags : Set := NONE.

(** [gxapi::ResourceDesc]: [ResourceDesc::Buffer(size)] is the one
    constructor the sources call. *)
Inductive ResourceDesc : Set :=
  | Buffer (size : N)
  | Texture (width height : N).

(** A committed resource as the device holds it; its address is its position
    among the resources the device has created. *)
Record DeviceResource : Set := mkDeviceResource {
  dr_heapType : eHeapType;
  dr_heapFlags : eHeapFlags;
  dr_desc : ResourceDesc;
  dr_initialState : eResourceState;
  dr_memory : list Byte.byte
}.

(** The exceptions of [gxapi]. [UploadToResource] throws [InvalidArgument]
    with a message and the name of the argument. What [ThrowIfFailed] throws
    for a failed [HRESULT] is declared in [ExceptionExpansions.hpp], which is
    not part of the sources: it is kept apart as [DeviceError]. *)
Inductive Exception : Set :=
  | InvalidArgument (message argument : string)
  | DeviceError (hresult : Z).

(** The state of the graphics API: the resources created so far, and the
    verdict of the native [ID3D12Device::CreateCommittedResource] on a
    description ([0] is [S_OK]). *)
Record GraphicsApi : Type := mkGraphicsApi {
  api_resources : list DeviceResource;
  api_native_create : ResourceDesc → Z
}.

(** [GraphicsApi::CreateCommittedResource]: [ThrowIfFailed] on the native
    call, then [new Resource{native}]. *)
Definition CreateCommittedResource (api : GraphicsApi) (heapType : eHeapType)
    (heapFlags : eHeapFlags) (desc : ResourceDesc) (initialState : eResourceState)
  : Exception + (IResourcePtr * GraphicsApi) :=
  let hr := api_native_create api desc in
  if decide (hr = 0%Z) then
    inr (N.of_nat (length (api_resources api)),
         mkGraphicsApi
           (api_resources api ++
              [mkDeviceResource heapType heapFlags desc initialState []])
           (api_native_create api))
  else inl (DeviceError hr).

(** [IResource::Map] followed by [memcpy(stagePtr, data, size)]: the first
    [size] bytes of [data] become the memory of the mapped resource. *)
Definition map_and_copy (api : GraphicsApi) (res : IResourcePtr)
    (data : list Byte.byte) (size : N) : GraphicsApi :=
  mkGraphicsApi
    (alter (λ d, mkDeviceResource (dr_heapType d) (dr_heapFlags d) (dr_desc d)
                   (dr_initialState d) (take (N.to_nat size) data))
           (N.to_nat res) (api_resources api))
    (api_native_create api).

(** ** [ResourceHeap.cpp] *)

(** [gxeng::DescriptorReference]; a null pointer is [None]. *)
Record DescriptorReference : Set := mkDescriptorReference {
  m_deleter : option N;
  cpuAddress : option N;
  gpuAddress : option N
}.

(** [gxeng::GenericResource]: a descriptor and the resource it owns. *)
Record GenericResource : Set := mkGenericResource {
  gr_desc : DescriptorReference;
  gr_resource : IResourcePtr;
  gr_resident : bool
}.

Definition _SetResident (g : GenericResource) (resident : bool) : GenericResource :=
  mkGenericResource (gr_desc g) (gr_resource g) resident.

(** [gxeng::LinearBuffer], as far as [UploadToResource] looks at it. *)
Record LinearBuffer : Set := mkLinearBuffer {
  lb_resource : IResourcePtr;
  GetSize : N
}.

(** What a command list has been asked to record, in order: the three calls
    of [UploadToResource] on a [gxeng::CopyCommandList], and the clear of the
    failure screen. *)
Inductive Command : Set :=
  | CmdResourceBarrier (barrier : TransitionBarrier)
  | CmdRegisterResourceTransition (res : IResourcePtr) (subres : N)
                                  (state : eResourceState)
  | CmdCopyBuffer (dst : IResourcePtr) (dstOffset : N)
                  (src : IResourcePtr) (srcOffset : N) (size : N)
  | CmdClearRenderTarget (target : IResourcePtr) (color : N * N * N * N).

Abbreviation CopyCommandList := (list Command).

(** *** [impl::CriticalBufferHeap] *)

(** The heap holds the graphics API; [m_resources] is the set the
    commented-out line of [ReleaseUnderlying] names. *)
Record CriticalBufferHeap : Type := mkCriticalBufferHeap {
  cbh_graphicsApi : GraphicsApi;
  cbh_resources : list N
}.

Definition CriticalBufferHeap_Allocate (heap : CriticalBufferHeap)
    (desc : ResourceDesc) : Exception + (IResourcePtr * CriticalBufferHeap) :=
  match CreateCommittedResource (cbh_graphicsApi heap) DEFAULT NONE desc COMMON with
  | inl e => inl e
  | inr (res, api) => inr (res, mkCriticalBufferHeap api (cbh_resources heap))
  end.

(** The body is empty: [//m_resources.erase(owner);]. *)
Definition CriticalBufferHeap_ReleaseUnderlying (heap : CriticalBufferHeap)
    (owner : N) : CriticalBufferHeap :=
  heap.

(** *** [UploadHeap] *)

Record UploadHeap : Type := mkUploadHeap {
  m_graphicsApi : GraphicsApi;
  m_stagedResources : list GenericResource
}.

(** How a call ends: it returns, or an exception leaves it. *)
Inductive Outcome : Set :=
  | Returned
  | Thrown (e : Exception).

(** [UploadHeap::UploadToResource]. The result is how the call ends together
    with the heap and the command list as the call leaves them. *)
Definition UploadToResource (heap : UploadHeap) (cmdList : CopyCommandList)
    (target : LinearBuffer) (data : list Byte.byte) (size : N)
  : Outcome * UploadHeap * CopyCommandList :=
  if decide (GetSize target < size) then
    (Thrown (InvalidArgument
               "Target buffer is not large enough for the uploaded data to fit."
               "target"),
     heap, cmdList)
  else
    let desc := mkDescriptorReference None None None in
    match CreateCommittedResource (m_graphicsApi heap) UPLOAD NONE (Buffer size)
                                  COPY_DEST with
    | inl e => (Thrown e, heap, cmdList)
    | inr (stagedRes, api) =>
        let staged := _SetResident (mkGenericResource desc stagedRes false) true in
        let api := map_and_copy api stagedRes data size in
        let stageToSrc :=
          mkTransitionBarrier stagedRes COPY_DEST COPY_SOURCE 0xffffffff NORMAL in
        (Returned,
         mkUploadHeap api (m_stagedResources heap ++ [staged]),
         cmdList ++
           [CmdResourceBarrier stageToSrc;
            CmdRegisterResourceTransition (lb_resource target) 0xffffffff COPY_DEST;
            CmdCopyBuffer (lb_resource target) 0 stagedRes 0 size])
    end.

(** *** [BackBufferHeap] *)

(** [gxapi::DescriptorHandle]: the two addresses [UploadToResource] sets to
    null; a null pointer is [None]. *)
Record DescriptorHandle : Set := mkDescriptorHandle {
  handle_cpuAddress : option N;
  handle_gpuAddress : option N
}.

(** [gxapi::eDesriptorHeapType]; the constructor of [BackBufferHeap] asks for
    [RTV]. *)
Inductive eDesriptorHeapType : Set := CBV_SRV_UAV | SAMPLER | RTV | DSV.

(** [gxapi::DescriptorHeapDesc], with the fields the constructor assigns. *)
Record DescriptorHeapDesc : Set := mkDescriptorHeapDesc {
  isShaderVisible : bool;
  numDescriptors : N;
  heap_type : eDesriptorHeapType
}.

(** [gxapi::IDescriptorHeap] ([DescriptorHeap.hpp] declares [At] and
    [GetDesc]; their bodies are not part of the sources): the description the
    heap was made from and the handle of each of its slots. *)
Record DescriptorHeap : Set := mkDescriptorHeap {
  heap_desc : DescriptorHeapDesc;
  At : N → DescriptorHandle
}.

(** [gxapi::ISwapChain], as far as the constructor looks at it:
    [GetDesc().numBuffers] and [GetBuffer]. *)
Record SwapChain : Set := mkSwapChain {
  numBuffers : N;
  GetBuffer : N → IResourcePtr
}.

(** The part of the device behind the descriptor calls of [GraphicsApi.cpp]:
    the verdict of the native [CreateDescriptorHeap] ([0] is [S_OK]), the
    handles of the heap it makes, and the native calls
    [CreateRenderTargetView(resource, nullptr, handle)] made so far, each with
    the resource and the CPU address it was given. *)
Record ViewDevice : Type := mkViewDevice {
  native_create_heap : DescriptorHeapDesc → Z;
  native_heap_at : DescriptorHeapDesc → N → DescriptorHandle;
  render_target_views : list (IResourcePtr * option N)
}.

(** [GraphicsApi::CreateDescriptorHeap]: [ThrowIfFailed] on the native call,
    then [new DescriptorHeap{native}]. *)
Definition CreateDescriptorHeap (dev : ViewDevice) (desc : DescriptorHeapDesc)
  : Exception + DescriptorHeap :=
  let hr := native_create_heap dev desc in
  if decide (hr = 0%Z) then inr (mkDescriptorHeap desc (native_heap_at dev desc))
  else inl (DeviceError hr).

(** [GraphicsApi::CreateRenderTargetView(resource, destination)]: the native
    call gets the resource, no description, and the CPU address of the
    destination alone. *)
Definition CreateRenderTargetView (dev : ViewDevice) (resource : IResourcePtr)
    (destination : DescriptorHandle) : ViewDevice :=
  mkViewDevice (native_create_heap dev) (native_heap_at dev)
    (render_target_views dev ++ [(resource, handle_cpuAddress destination)]).

(** [gxeng::Texture2D]: a generic resource; [owns_resource] is [false] when it
    was built with the deleter that does nothing. *)
Record Texture2D : Set := mkTexture2D {
  tex_base : GenericResource;
  owns_resource : bool
}.

Record BackBufferHeap : Set := mkBackBufferHeap {
  m_swapChain : SwapChain;
  m_descriptorHeap : DescriptorHeap;
  m_backBuffers : list Texture2D
}.

(** One turn of the loop of the constructor. *)
Definition wrap_back_buffer (swapChain : SwapChain) (heap : DescriptorHeap)
    (acc : list Texture2D * ViewDevice) (i : N) : list Texture2D * ViewDevice :=
  let descHandle := At heap i in
  let lowLeveBuffer := GetBuffer swapChain i in
  let dev := CreateRenderTargetView acc.2 lowLeveBuffer descHandle in
  let descRef :=
    mkDescriptorReference None (handle_cpuAddress descHandle)
                          (handle_gpuAddress descHandle) in
  let highLevelBuffer :=
    mkTexture2D (_SetResident (mkGenericResource descRef lowLeveBuffer false) true)
                false in
  (acc.1 ++ [highLevelBuffer], dev).

(** [BackBufferHeap::BackBufferHeap]: the heap it builds and the device it
    leaves, or the exception of [CreateDescriptorHeap]. *)
Definition BackBufferHeap_new (dev : ViewDevice) (swapChain : SwapChain)
  : Exception + (BackBufferHeap * ViewDevice) :=
  let n := numBuffers swapChain in
  match CreateDescriptorHeap dev (mkDescriptorHeapDesc false n RTV) with
  | inl e => inl e
  | inr heap =>
      let built :=
        foldl (wrap_back_buffer swapChain heap) ([], dev) (subresource_range n) in
      inr (mkBackBufferHeap swapChain heap built.1, built.2)
  end.

(** [BackBufferHeap::GetBackBuffer]: [m_backBuffers.at(index)], which throws
    [std::out_of_range], here [None], for an index that is not in the
    vector. *)
Definition GetBackBuffer (heap : BackBufferHeap) (index : N) : option Texture2D :=
  m_backBuffers heap !! N.to_nat index.

(** ** The pipeline *)

(** Modelled from the spec: a graphics task ([GraphicsNode.hpp] is not part
    of the sources). A task is opaque to the scheduler: what its [Setup] and
    its [Execute] do in a frame is either to throw or, for [Setup], to declare
    usage records and, for [Execute], to record one command list. It may hold
    transient resources. *)
Record GraphicsTask : Set := mkGraphicsTask {
  task_Setup : Exception + list UsedResource;
  task_Execute : Exception + list Command;
  task_resources : list N
}.

(** Modelled from the spec: the usage list of a task after [Setup], which
    sorts the list by resource identity before it returns. *)
Definition task_usages (t : GraphicsTask) : list UsedResource :=
  match task_Setup t with
  | inr us => merge_sort resource_le us
  | inl _ => []
  end.

Definition task_commands (t : GraphicsTask) : list Command :=
  match task_Execute t with
  | inr cmds => cmds
  | inl _ => []
  end.

(** [lemon::ListDigraph]: nodes by their identifier, arcs by their two ends
    ([Pipeline.hpp] and the graph library are not part of the sources). *)
Record ListDigraph : Set := mkListDigraph {
  nodes : list N;
  arcs : list (N * N)
}.

(** The pipeline: the graph and its [NodeMap<GraphicsTask*>]. *)
Record Pipeline : Type := mkPipeline {
  taskGraph : ListDigraph;
  taskFunctionMap : N → GraphicsTask
}.



(** ** [Scheduler::MakeSchedule] *)

(** Modelled from the spec: the schedule builder, declared in
    [Scheduler.hpp] and defined in [Scheduler.cpp], which is not part of the
    sources. Kahn-style topological ordering: a node is ready once the source
    of every arc into it has been emitted; among the ready nodes the one with
    the lowest identifier goes first, except that a ready node whose usage
    list is compatible with the node emitted last is preferred. *)
Definition ready (g : ListDigraph) (emitted : list N) (n : N) : bool :=
  forallb (λ a, bool_decide (snd a ≠ n) || bool_decide (fst a ∈ emitted)) (arcs g).

Definition ready_nodes (g : ListDigraph) (emitted : list N) : list N :=
  filter (λ n, (n ∉ emitted) ∧ ready g emitted n = true) (nodes g).

Definition lowest (l : list N) : option N :=
  match l with
  | [] => None
  | n :: l' => Some (foldr N.min n l')
  end.

Definition prefers (tasks : N → GraphicsTask) (prev : option N) (n : N) : bool :=
  match prev with
  | None => false
  | Some p => CanExecuteParallel (task_usages (tasks p)) (task_usages (tasks n))
  end.

Definition next_node (g : ListDigraph) (tasks : N → GraphicsTask)
    (prev : option N) (emitted : list N) : option N :=
  let candidates := ready_nodes g emitted in
  match lowest (filter (λ n, prefers tasks prev n = true) candidates) with
  | Some n => Some n
  | None => lowest candidates
  end.

Fixpoint schedule_from (g : ListDigraph) (tasks : N → GraphicsTask) (fuel : nat)
    (prev : option N) (emitted : list N) : list N :=
  match fuel with
  | O => []
  | S fuel' =>
      match next_node g tasks prev emitted with
      | None => []
      | Some n => n :: schedule_from g tasks fuel' (Some n) (n :: emitted)
      end
  end.

(** At most one node is emitted per round, so [length (nodes g)] rounds
    suffice. *)
Definition schedule_order (g : ListDigraph) (tasks : N → GraphicsTask) : list N :=
  schedule_from g tasks (length (nodes g)) None [].

Definition MakeSchedule (taskGraph : ListDigraph)
    (taskFunctionMap : N → GraphicsTask) : list GraphicsTask :=
  taskFunctionMap <$> schedule_order taskGraph taskFunctionMap.

(** ** The frame *)

(** Modelled from the spec: the error kinds the scheduler surfaces. *)
Inductive SchedulerError : Set :=
  | PipelineBusy
  | SetupFailure (e : Exception)
  | ExecuteFailure (e : Exception)
  | AssembleFailure
  | SubmissionFailure.

(** What goes to the command queue: a batch of barriers, or a command list. *)
Inductive Submission : Set :=
  | SubmitBarriers (barriers : list ResourceBarrier)
  | SubmitCommandList (commands : list Command).

(** Modelled from the spec: the inputs of a frame. The upload task is the
    implicit first task; [queue_accepts] is the verdict of the command queue
    on a submission. *)
Record FrameContext : Type := mkFrameContext {
  frame : N;
  backBuffer : IResourcePtr;
  uploadTask : GraphicsTask;
  queue_accepts : Submission → bool
}.

(** Modelled from the spec: assembling the submission. Walk the tasks in
    schedule order; for each, the barriers [InjectBarriers] asks for, then the
    command list of the task, then advance the state table. *)
Fixpoint Assemble (tbl : ResourceStateTable) (schedule : list GraphicsTask)
  : option (list Submission * ResourceStateTable) :=
  match schedule with
  | [] => Some ([], tbl)
  | t :: schedule' =>
      barriers ← InjectBarriers tbl (task_usages t);
      tbl' ← UpdateResourceStates tbl (task_usages t);
      '(rest, tbl'') ← Assemble tbl' schedule';
      Some (SubmitBarriers barriers :: SubmitCommandList (task_commands t) :: rest,
            tbl'')
  end.

(** The first exception of a pass over the tasks, if any. *)
Fixpoint first_throw {A : Type} (run : GraphicsTask → Exception + A)
    (tasks : list GraphicsTask) : option Exception :=
  match tasks with
  | [] => None
  | t :: tasks' =>
      match run t with
      | inl e => Some e
      | inr _ => first_throw run tasks'
      end
  end.

(** [class Scheduler]: [m_pipeline] is the member that bears on the model
    ([m_jobScheduler], the worker pool, is left out). The constructor takes no
    argument. *)
Record Scheduler : Type := mkScheduler {
  m_pipeline : Pipeline
}.

(** Modelled from the spec: the phases of a frame, [Scheduler.cpp] being
    absent: the Setup pass over every task, the schedule, the Record pass,
    the assembly of the submission, the submission to the queue. The first
    failure ends the frame. *)
Definition frame_tasks (sched : Scheduler) (context : FrameContext)
  : list GraphicsTask :=
  uploadTask context ::
  (taskFunctionMap (m_pipeline sched) <$> nodes (taskGraph (m_pipeline sched))).

Definition frame_schedule (sched : Scheduler) (context : FrameContext)
  : list GraphicsTask :=
  uploadTask context ::
  MakeSchedule (taskGraph (m_pipeline sched)) (taskFunctionMap (m_pipeline sched)).

(** The state table as the assembly leaves it. [UpdateResourceStates] writes
    the recorded states in place, task after task, and nothing keeps a copy of
    the table: when the assembly stops, the table holds what the tasks before
    have recorded. *)
Fixpoint assembled_table (tbl : ResourceStateTable) (schedule : list GraphicsTask)
  : ResourceStateTable :=
  match schedule with
  | [] => tbl
  | t :: schedule' =>
      match InjectBarriers tbl (task_usages t),
            UpdateResourceStates tbl (task_usages t) with
      | Some _, Some tbl' => assembled_table tbl' schedule'
      | _, _ => tbl
      end
  end.

(** A frame either fails, with the error and the state table as written so
    far, or gets through, with its submission and the advanced table. *)
Definition run_frame (sched : Scheduler) (context : FrameContext)
    (tbl : ResourceStateTable)
  : SchedulerError * ResourceStateTable + list Submission * ResourceStateTable :=
  match first_throw task_Setup (frame_tasks sched context) with
  | Some e => inl (SetupFailure e, tbl)
  | None =>
      let schedule := frame_schedule sched context in
      match first_throw task_Execute schedule with
      | Some e => inl (ExecuteFailure e, tbl)
      | None =>
          match Assemble tbl schedule with
          | None => inl (AssembleFailure, assembled_table tbl schedule)
          | Some (submission, tbl') =>
              if forallb (queue_accepts context) submission
              then inr (submission, tbl')
              else inl (SubmissionFailure, tbl')
          end
      end
  end.

(** Modelled from the spec: the failure color. [RenderFailureScreen] is
    static and takes the frame context alone, and the class holds no color:
    the color is a constant of the function, whose body is absent, and this
    value stands for it. *)
Definition failure_color : N * N * N * N := (255, 0, 255, 255).

(** Modelled from the spec: [Scheduler::RenderFailureScreen], declared only:
    one minimal command list that clears the back-buffer to the failure
    color. *)
Definition RenderFailureScreen (context : FrameContext) : list Submission :=
  [SubmitCommandList [CmdClearRenderTarget (backBuffer context) failure_color]].

(** What a frame leaves behind. *)
Record FrameResult : Set := mkFrameResult {
  submitted : list Submission;
  table_after : ResourceStateTable;
  reported : option SchedulerError
}.

(** Modelled from the spec: [Scheduler::ExecuteParallel], defined in
    [Scheduler.cpp]. [Execute] runs it as a dry run only: it submits nothing
    and leaves the state table as it is. *)
Definition ExecuteParallel (sched : Scheduler) (context : FrameContext)
    (tbl : ResourceStateTable) : ResourceStateTable :=
  tbl.

(** Modelled from the spec: [Scheduler::ExecuteSerial], defined in
    [Scheduler.cpp], the real drawing. A frame that fails is replaced by the
    failure screen; the state table is the one the frame has written. *)
Definition ExecuteSerial (sched : Scheduler) (context : FrameContext)
    (tbl : ResourceStateTable) : FrameResult :=
  match run_frame sched context tbl with
  | inr (submission, tbl') => mkFrameResult submission tbl' None
  | inl (e, tbl') => mkFrameResult (RenderFailureScreen context) tbl' (Some e)
  end.

(** [Scheduler::Execute]: the dry run, then the real drawing. *)
Definition Execute (sched : Scheduler) (context : FrameContext)
    (tbl : ResourceStateTable) : FrameResult :=
  let tbl := ExecuteParallel sched context tbl in
  ExecuteSerial sched context tbl.


Definition GetPipeline (sched : Scheduler) : Pipeline := m_pipeline sched.









(** ** Vocabulary of the barrier properties *)

(** The subresource indices a usage record stands for: every index of the
    resource when it carries the all-subresources token, the index it names
    otherwise. *)
Definition covers (tbl : ResourceStateTable) (u : UsedResource) (k : N) : Prop :=
  (subresource u = ALL_SUBRESOURCES ∧
   ∃ n, GetNumSubresources tbl (used_resource u) = Some n ∧ k < n)
  ∨ (subresource u ≠ ALL_SUBRESOURCES ∧ k = subresource u).

(** A usage record the table can serve: its resource is known, and the index
    it names, if any, is one of the resource's subresources. *)
Definition usage_in_range (tbl : ResourceStateTable) (u : UsedResource) : Prop :=
  ∃ n, GetNumSubresources tbl (used_resource u) = Some n ∧
       (subresource u = ALL_SUBRESOURCES ∨ subresource u < n).

(** What the barriers [bs] emitted for one usage record [u] must be: each is a
    transition of a covered subresource of [u]'s resource from its recorded
    state to [firstState u], the two being different; and the barriers on a
    covered subresource [k] are exactly one such transition when the recorded
    state differs from [firstState u], none when it is equal. *)
Definition barriers_of_usage (tbl : ResourceStateTable) (u : UsedResource)
    (bs : list ResourceBarrier) : Prop :=
  (∀ b, b ∈ bs →
     resource b = used_resource u ∧
     covers tbl u (subResource b) ∧
     ReadState tbl (used_resource u) (subResource b) = Some (beforeState b) ∧
     afterState b = firstState u ∧
     beforeState b ≠ afterState b)
  ∧ (∀ k st, covers tbl u k →
     ReadState tbl (used_resource u) k = Some st →
     filter (λ b, subResource b = k) bs =
       if decide (st = firstState u) then []
       else [mkTransitionBarrier (used_resource u) st (firstState u) k NORMAL]).

(** The (resource, subresource) pairs a usage record stands for. *)
Definition covers_pair (tbl : ResourceStateTable) (u : UsedResource) (r k : N)
  : Prop :=
  used_resource u = r ∧ covers tbl u k.

(** ** Vocabulary of the parallel-compatibility properties *)

(** Two usage records of one resource whose uses cannot overlap: their first
    states differ, or one of them uses the resource more than once. *)
Definition conflicting (a b : UsedResource) : Prop :=
  used_resource a = used_resource b ∧
  (firstState a ≠ firstState b ∨ multipleUse a = true ∨ multipleUse b = true).

(** Sorted by resource identity. *)
Definition sorted_by_resource (l : list UsedResource) : Prop :=
  Sorted resource_le l.

(** Sorted by resource identity, with one record per resource at most. *)
Definition strictly_sorted_by_resource (l : list UsedResource) : Prop :=
  StronglySorted (λ a b, used_resource a < used_resource b) l.

(** Two usage lists in which one resource has several records: three uses of
    resource [1], on subresources [1] and [0], [1]. *)
Definition usages_A : list UsedResource :=
  [mkUsedResource 1 1 SHADER_RESOURCE SHADER_RESOURCE false].
Definition usages_B : list UsedResource :=
  [mkUsedResource 1 0 SHADER_RESOURCE SHADER_RESOURCE false;
   mkUsedResource 1 1 UNORDERED_ACCESS UNORDERED_ACCESS false].

(** ** Vocabulary of the schedule properties *)

Definition arc (g : ListDigraph) (a b : N) : Prop := (a, b) ∈ arcs g.

(** No node reaches itself along one or more arcs. *)
Definition acyclic (g : ListDigraph) : Prop := ∀ n, ¬ tc (arc g) n n.

(** No dangling arc: both ends of every arc are nodes of the graph. *)
Definition arcs_closed (g : ListDigraph) : Prop :=
  ∀ a b, arc g a b → a ∈ nodes g ∧ b ∈ nodes g.

(** [x] comes before [y] in [l]. *)
Definition precedes {A : Type} (x y : A) (l : list A) : Prop :=
  ∃ l1 l2 l3, l = l1 ++ x :: l2 ++ y :: l3.

(** The node emitted last, after [l] has been emitted on top of [prev]. *)
Definition last_emitted (prev : option N) (l : list N) : option N :=
  match last l with
  | Some n => Some n
  | None => prev
  end.

(** ** Vocabulary of the failure path *)



(** ** Vocabulary of the further properties of the scheduler *)

(** What [InjectBarriers] reads of a usage record. *)
Definition same_barrier_inputs (u u' : UsedResource) : Prop :=
  used_resource u = used_resource u' ∧ subresource u = subresource u' ∧
  firstState u = firstState u'.

(** What [UpdateResourceStates] reads of a usage record. *)
Definition same_update_inputs (u u' : UsedResource) : Prop :=
  used_resource u = used_resource u' ∧ subresource u = subresource u' ∧
  lastState u = lastState u'.

(** What [CanExecuteParallel] reads of a usage record. *)
Definition same_parallel_inputs (u u' : UsedResource) : Prop :=
  used_resource u = used_resource u' ∧ firstState u = firstState u' ∧
  multipleUse u = multipleUse u'.

(** The states of a resource after one usage record has been recorded on the
    states [l]: all of them become [lastState] under the all-subresources
    token, the named one alone otherwise, if there is such a subresource. *)
Definition recorded_states (u : UsedResource) (l : list eResourceState)
  : option (list eResourceState) :=
  if decide (subresource u = ALL_SUBRESOURCES) then
    Some (replicate (length l) (lastState u))
  else if decide (N.to_nat (subresource u) < length l)%nat then
    Some (<[N.to_nat (subresource u) := lastState u]> l)
  else None.

(** Two usage lists without a common resource. *)
Definition disjoint_resources (us vs : list UsedResource) : Prop :=
  ∀ u v, u ∈ us → v ∈ vs → used_resource u ≠ used_resource v.

(** Whether a usage record names the subresource [k] of the resource [r]. *)
Definition names_pair (u : UsedResource) (r k : N) : Prop :=
  used_resource u = r ∧ (subresource u = ALL_SUBRESOURCES ∨ subresource u = k).

#[global] Instance names_pair_dec u r k : Decision (names_pair u r k).
Proof. unfold names_pair. apply _. Defined.

(** The state of a subresource in state [st] once the usage records [us] have
    been recorded in turn: the last record that names it decides. *)
Definition state_after (us : list UsedResource) (r k : N) (st : eResourceState)
  : eResourceState :=
  foldl (λ s u, if decide (names_pair u r k) then lastState u else s) st us.

(** ** Vocabulary of the further properties of the heaps *)

(** The staged resources of an upload heap are resources of its device, no
    two of them the same. *)
Definition staged_wf (heap : UploadHeap) : Prop :=
  NoDup (gr_resource <$> m_stagedResources heap) ∧
  ∀ g, g ∈ m_stagedResources heap →
       (N.to_nat (gr_resource g) < length (api_resources (m_graphicsApi heap)))%nat.

(** ** Scenarios *)

(** All-subresources fan-out: resource [7] has four subresources, the task
    declares all of them with [COPY_DEST] as first and last state. *)
Definition fanout_table : ResourceStateTable :=
  {[ 7 := [COMMON; COMMON; RENDER_TARGET; COMMON] ]}.

Definition fanout_usages : list UsedResource :=
  [mkUsedResource 7 ALL_SUBRESOURCES COPY_DEST COPY_DEST false].

(** A linear chain with re-use: texture [3], one subresource, first a render
    target, then a shader resource. *)
Definition chain_table : ResourceStateTable := {[ 3 := [COMMON] ]}.

Definition chain_usages_A : list UsedResource :=
  [mkUsedResource 3 0 RENDER_TARGET RENDER_TARGET false].
Definition chain_usages_B : list UsedResource :=
  [mkUsedResource 3 0 SHADER_RESOURCE SHADER_RESOURCE false].

(** A diamond: node [1] before [2] and [3], both before [4]; each task uses a
    resource of its own. *)
Definition diamond : ListDigraph :=
  mkListDigraph [1; 2; 3; 4] [(1, 2); (1, 3); (2, 4); (3, 4)].

(** The same graph, its nodes and arcs stored in another order. *)
Definition diamond_reordered : ListDigraph :=
  mkListDigraph [2; 1; 3; 4] [(1, 3); (1, 2); (2, 4); (3, 4)].

Definition diamond_tasks (n : N) : GraphicsTask :=
  mkGraphicsTask (inr [mkUsedResource n 0 COMMON COMMON false])
                 (inr [CmdClearRenderTarget n (0, 0, 0, 0)]) [n].

Definition diamond_scheduler : Scheduler :=
  mkScheduler (mkPipeline diamond diamond_tasks).

(** Five nodes, [1] before [2], [3], [4], all before [5]; the task of [3]
    needs resource [1] in another state than the others do. *)
Definition fan : ListDigraph :=
  mkListDigraph [1; 2; 3; 4; 5] [(1, 2); (1, 3); (1, 4); (2, 5); (3, 5); (4, 5)].

Definition fan_tasks (n : N) : GraphicsTask :=
  mkGraphicsTask
    (inr [mkUsedResource 1 0 (if decide (n = 3) then COMMON else COPY_DEST)
                         COMMON false])
    (inr []) [].









(** An upload of four bytes into a buffer of two, and into a buffer of
    eight. *)
Definition small_buffer : LinearBuffer := mkLinearBuffer 5 2.
Definition large_buffer : LinearBuffer := mkLinearBuffer 5 8.

Definition fresh_heap : UploadHeap :=
  mkUploadHeap (mkGraphicsApi [] (λ _, 0%Z)) [].

Definition four_bytes : list Byte.byte :=
  [Byte.x01; Byte.x02; Byte.x03; Byte.x04].

(** The barriers of the fan-out, and the table once the fan-out has been
    recorded. *)
Definition fanout_barrier_list : list ResourceBarrier :=
  [mkTransitionBarrier 7 COMMON COPY_DEST 0 NORMAL;
   mkTransitionBarrier 7 COMMON COPY_DEST 1 NORMAL;
   mkTransitionBarrier 7 RENDER_TARGET COPY_DEST 2 NORMAL;
   mkTransitionBarrier 7 COMMON COPY_DEST 3 NORMAL].

Definition fanout_table_after : ResourceStateTable :=
  {[ 7 := [COPY_DEST; COPY_DEST; COPY_DEST; COPY_DEST] ]}.

(** The fan-out record with other fields than the ones a function reads. *)
Definition fanout_usages_other_last : list UsedResource :=
  [mkUsedResource 7 ALL_SUBRESOURCES COPY_DEST PRESENT true].
Definition fanout_usages_other_first : list UsedResource :=
  [mkUsedResource 7 ALL_SUBRESOURCES COMMON COPY_DEST true].
Definition chain_usages_A_other_subresource : list UsedResource :=
  [mkUsedResource 3 5 RENDER_TARGET PRESENT false].

(** The chain after task A, and what task B asks for in a third task. *)
Definition chain_table_after_A : ResourceStateTable := {[ 3 := [RENDER_TARGET] ]}.

Definition chain_usage_reader : UsedResource :=
  mkUsedResource 3 0 RENDER_TARGET SHADER_RESOURCE false.

(** Two usage lists with one record per resource, sharing resource [3]. *)
Definition unique_usages_A : list UsedResource :=
  [mkUsedResource 1 0 COMMON COMMON true;
   mkUsedResource 3 0 SHADER_RESOURCE SHADER_RESOURCE false].
Definition unique_usages_B : list UsedResource :=
  [mkUsedResource 3 ALL_SUBRESOURCES SHADER_RESOURCE COMMON false;
   mkUsedResource 7 0 COPY_DEST COPY_DEST false].

(** The heap and the command list after the upload of the four bytes into
    the large buffer. *)
Definition upload_heap_after : UploadHeap :=
  mkUploadHeap
    (mkGraphicsApi [mkDeviceResource UPLOAD NONE (Buffer 4) COPY_DEST four_bytes]
                   (api_native_create (m_graphicsApi fresh_heap)))
    [mkGenericResource (mkDescriptorReference None None None) 0 true].

Definition upload_commands_after : CopyCommandList :=
  [CmdResourceBarrier
     (mkTransitionBarrier 0 COPY_DEST COPY_SOURCE ALL_SUBRESOURCES NORMAL);
   CmdRegisterResourceTransition 5 ALL_SUBRESOURCES COPY_DEST;
   CmdCopyBuffer 5 0 0 0 4].

(** A swap chain of two buffers, and a device that hands out the descriptor
    slots [100], [101], ... *)
Definition two_buffers : SwapChain := mkSwapChain 2 (λ i, 10 + i).

Definition plain_device : ViewDevice :=
  mkViewDevice (λ _, 0%Z) (λ _ i, mkDescriptorHandle (Some (100 + i)) None) [].

(** The back-buffer heap built from them, and the device afterwards. *)
Definition two_buffers_heap : BackBufferHeap :=
  mkBackBufferHeap two_buffers
    (mkDescriptorHeap (mkDescriptorHeapDesc false 2 RTV)
                      (native_heap_at plain_device (mkDescriptorHeapDesc false 2 RTV)))
    [mkTexture2D
       (mkGenericResource (mkDescriptorReference None (Some 100) None) 10 true) false;
     mkTexture2D
       (mkGenericResource (mkDescriptorReference None (Some 101) None) 11 true) false].

Definition plain_device_after : ViewDevice :=
  mkViewDevice (native_create_heap plain_device) (native_heap_at plain_device)
               [(10, Some 100); (11, Some 101)].

(* ===================================================================== *)
(** * Part II. Theorems *)
(* ===================================================================== *)

(** ** Generic facts about failing loops *)

Lemma for_each_app {A B : Type} (body : B → A → option B) acc xs ys :
  for_each body acc (xs ++ ys) = acc' ← for_each body acc xs; for_each body acc' ys.
Proof.
  revert acc; induction xs as [|x xs IH]; intros acc; simpl; [done|].
  destruct (body acc x) as [acc'|]; simpl; [apply IH | done].
Qed.

Lemma filter_none {A : Type} (P : A → Prop) `{!∀ x, Decision (P x)} (l : list A) :
  (∀ x, x ∈ l → ¬ P x) → filter P l = [].
Proof.
  induction l as [|x l IH]; intros Hl; [done|].
  rewrite filter_cons_False by (apply Hl; left).
  apply IH. intros y Hy. apply Hl. by right.
Qed.

Lemma elem_of_subresource_range (n k : N) :
  k ∈ subresource_range n ↔ k < n.
Proof.
  unfold subresource_range. rewrite list_elem_of_fmap. split.
  - intros (i & -> & Hi). apply list_elem_of_In, in_seq in Hi. lia.
  - intros Hk. exists (N.to_nat k). split; [lia|].
    apply list_elem_of_In, in_seq. lia.
Qed.

Lemma NoDup_subresource_range (n : N) : NoDup (subresource_range n).
Proof.
  unfold subresource_range. apply NoDup_fmap_2.
  - intros i j Hij. lia.
  - apply NoDup_ListNoDup, List.seq_NoDup.
Qed.

(** ** The state table *)

Lemma GetNumSubresources_Some tbl r n :
  GetNumSubresources tbl r = Some n ↔
  ∃ l, tbl !! r = Some l ∧ n = N.of_nat (length l).
Proof.
  unfold GetNumSubresources. destruct (tbl !! r) as [l|]; simpl.
  - split; [intros [= <-]; eauto | intros (l' & [= <-] & ->); done].
  - split; [done | intros (l' & [=] & _)].
Qed.

Lemma ReadState_is_Some tbl r k :
  is_Some (ReadState tbl r k) ↔
  ∃ n, GetNumSubresources tbl r = Some n ∧ k < n.
Proof.
  unfold ReadState, GetNumSubresources. destruct (tbl !! r) as [l|]; simpl.
  - rewrite lookup_lt_is_Some. split.
    + intros Hk. eexists; split; [done|]. lia.
    + intros (n & [= <-] & Hk). lia.
  - split; [intros [? [=]] | intros (n & [=] & _)].
Qed.

(** ** Barrier injection *)

(** Rewrites the filter of [l] in the goal to [[]], asking for the proof. *)
Ltac filter_vanishes l :=
  match goal with
  | |- context [@filter _ _ _ ?P ?d l] =>
      let H := fresh in
      assert (H : @filter _ _ _ P d l = []); [|rewrite H; clear H]
  end.

Section InjectBarriers.
Variable tbl : ResourceStateTable.

Lemma inject_subresource_Some r t bs k st :
  ReadState tbl r k = Some st →
  inject_subresource tbl r t bs k =
    Some (bs ++ if decide (st = t) then []
                else [mkTransitionBarrier r st t k NORMAL]).
Proof.
  intros Hst. unfold inject_subresource. rewrite Hst. simpl.
  destruct (decide (st = t)) as [->|Hne].
  - rewrite decide_False by auto. by rewrite app_nil_r.
  - by rewrite decide_True.
Qed.

(** The inner loop over a duplicate-free list of readable indices. *)
Lemma inject_range r t ks :
  NoDup ks →
  (∀ k, k ∈ ks → is_Some (ReadState tbl r k)) →
  ∀ bs, ∃ bs',
    for_each (inject_subresource tbl r t) bs ks = Some (bs ++ bs') ∧
    (∀ b, b ∈ bs' →
       resource b = r ∧ subResource b ∈ ks ∧
       ReadState tbl r (subResource b) = Some (beforeState b) ∧
       afterState b = t ∧ beforeState b ≠ afterState b) ∧
    (∀ k st, k ∈ ks → ReadState tbl r k = Some st →
       filter (λ b, subResource b = k) bs' =
         if decide (st = t) then [] else [mkTransitionBarrier r st t k NORMAL]).
Proof.
  induction 1 as [|k0 ks Hk0 Hnd IH]; intros Hread bs.
  - exists []. rewrite app_nil_r. split_and!; [done | |].
    + intros b Hb. by apply elem_of_nil in Hb.
    + intros k st Hk. by apply elem_of_nil in Hk.
  - destruct (Hread k0) as [st0 Hst0]; [left|].
    destruct (IH (λ k Hk, Hread k (list_elem_of_further _ _ _ Hk))
                (bs ++ if decide (st0 = t) then []
                       else [mkTransitionBarrier r st0 t k0 NORMAL]))
      as (bs' & Hrun & Hall & Hcount).
    set (tr := if decide (st0 = t) then []
               else [mkTransitionBarrier r st0 t k0 NORMAL]) in *.
    assert (Htr : ∀ b, b ∈ tr → b = mkTransitionBarrier r st0 t k0 NORMAL ∧ st0 ≠ t).
    { subst tr. intros b Hb. destruct (decide (st0 = t)).
      - by apply elem_of_nil in Hb.
      - apply list_elem_of_singleton in Hb. done. }
    exists (tr ++ bs'). split_and!.
    + simpl. rewrite (inject_subresource_Some _ _ _ _ _ Hst0). simpl.
      fold tr. rewrite Hrun. by rewrite app_assoc.
    + intros b [Hb|Hb]%elem_of_app.
      * destruct (Htr b Hb) as [-> Hne]. simpl. split_and!; auto. left.
      * destruct (Hall b Hb) as (?&?&?&?&?). split_and!; auto. by right.
    + intros k st Hk Hst. rewrite filter_app.
      apply elem_of_cons in Hk as [->|Hk].
      * assert (st = st0) as -> by congruence.
        filter_vanishes bs'.
        { apply filter_none. intros b Hb Hsub.
          destruct (Hall b Hb) as (_ & Hin & _). congruence. }
        rewrite app_nil_r. subst tr. destruct (decide (st0 = t)); [done|].
        cbn. by rewrite decide_True.
      * rewrite (Hcount k st Hk Hst).
        filter_vanishes tr; [|done].
        apply filter_none. intros b Hb Hsub.
        destruct (Htr b Hb) as [-> _]. simpl in Hsub. congruence.
Qed.

(** One iteration of the outer loop appends the barriers of its usage. *)
Lemma inject_usage_ok u :
  usage_in_range tbl u →
  ∀ bs, ∃ bs',
    inject_usage tbl bs u = Some (bs ++ bs') ∧ barriers_of_usage tbl u bs'.
Proof.
  intros (n & Hn & Hsub) bs. unfold inject_usage.
  destruct (decide (subresource u ≠ ALL_SUBRESOURCES)) as [Hne|Heq].
  - destruct Hsub as [?|Hlt]; [done|].
    destruct (inject_range (used_resource u) (firstState u) [subresource u])
      with (bs := bs) as (bs' & Hrun & Hall & Hcount).
    { apply NoDup_singleton. }
    { intros k ->%list_elem_of_singleton. apply ReadState_is_Some; eauto. }
    exists bs'. split.
    + simpl in Hrun.
      destruct (inject_subresource _ _ _ bs (subresource u)); simpl in *; done.
    + split.
      * intros b Hb. destruct (Hall b Hb) as (?&Hin%list_elem_of_singleton&?&?&?).
        split_and!; auto. right. done.
      * intros k st [[? _]|[_ ->]] Hst; [done|].
        apply Hcount; [left | done].
  - apply dec_stable in Heq. rewrite Hn. simpl.
    destruct (inject_range (used_resource u) (firstState u) (subresource_range n))
      with (bs := bs) as (bs' & Hrun & Hall & Hcount).
    { apply NoDup_subresource_range. }
    { intros k Hk%elem_of_subresource_range. apply ReadState_is_Some; eauto. }
    exists bs'. split; [done|]. split.
    + intros b Hb. destruct (Hall b Hb) as (?&Hin%elem_of_subresource_range&?&?&?).
      split_and!; auto. left. eauto.
    + intros k st [[_ (n' & Hn' & Hk)]|[? _]] Hst; [|done].
      assert (n' = n) as -> by congruence.
      apply Hcount; [by apply elem_of_subresource_range | done].
Qed.

Lemma inject_usages_ok us :
  Forall (usage_in_range tbl) us →
  ∀ bs, ∃ per,
    for_each (inject_usage tbl) bs us = Some (bs ++ concat per) ∧
    Forall2 (barriers_of_usage tbl) us per.
Proof.
  induction 1 as [|u us Hu _ IH]; intros bs.
  - exists []. simpl. by rewrite app_nil_r.
  - destruct (inject_usage_ok u Hu bs) as (bs' & Hrun & Hok).
    destruct (IH (bs ++ bs')) as (per & Hrest & Hper).
    exists (bs' :: per). split; [|by constructor].
    simpl. rewrite Hrun. simpl. rewrite Hrest. by rewrite app_assoc.
Qed.

(** C1. For a usage list the table can serve, [InjectBarriers] returns the
    concatenation, in the order of the usage records, of one batch of
    barriers per record [u]; the batch holds exactly one transition per
    covered subresource whose recorded state differs from [firstState u],
    from the recorded state to [firstState u], and none for a covered
    subresource whose recorded state equals it (all indices of the resource
    are covered under the all-subresources token, the named index alone
    otherwise). Hence no emitted barrier has equal before and after
    states. *)
Theorem InjectBarriers_emits_exactly_needed us :
  Forall (usage_in_range tbl) us →
  ∃ per,
    InjectBarriers tbl us = Some (concat per) ∧
    Forall2 (barriers_of_usage tbl) us per ∧
    (∀ b, b ∈ concat per → beforeState b ≠ afterState b).
Proof.
  intros Hus. destruct (inject_usages_ok us Hus []) as (per & Hrun & Hper).
  exists per. split_and!; [done | done |].
  intros b Hb. apply list_elem_of_In, in_concat in Hb as (bs & Hbs & Hb).
  apply list_elem_of_In in Hbs, Hb.
  apply list_elem_of_lookup in Hbs as [i Hi].
  destruct (Forall2_lookup_r _ _ _ _ _ Hper Hi) as (u & _ & [Hall _]).
  by destruct (Hall b Hb) as (_&_&_&_&?).
Qed.
End InjectBarriers.

(** ** Advancing the state table *)

Lemma RecordState_Some tbl r k st l :
  tbl !! r = Some l → (N.to_nat k < length l)%nat →
  RecordState tbl r k st = Some (<[r := <[N.to_nat k := st]> l]> tbl).
Proof.
  intros Hl Hk. unfold RecordState. rewrite Hl. simpl. by rewrite decide_True.
Qed.

Lemma GetNumSubresources_record tbl r k st l r' :
  tbl !! r = Some l →
  GetNumSubresources (<[r := <[N.to_nat k := st]> l]> tbl) r' =
  GetNumSubresources tbl r'.
Proof.
  intros Hl. unfold GetNumSubresources. destruct (decide (r = r')) as [<-|Hne].
  - rewrite lookup_insert_eq, Hl. simpl. by rewrite length_insert.
  - by rewrite lookup_insert_ne.
Qed.

Lemma ReadState_record tbl r k st l r' k' :
  tbl !! r = Some l → (N.to_nat k < length l)%nat →
  ReadState (<[r := <[N.to_nat k := st]> l]> tbl) r' k' =
  if decide (r' = r ∧ k' = k) then Some st else ReadState tbl r' k'.
Proof.
  intros Hl Hk. unfold ReadState. destruct (decide (r = r')) as [<-|Hne].
  - rewrite lookup_insert_eq, Hl. simpl.
    destruct (decide (k' = k)) as [->|Hk'].
    + rewrite decide_True by done. by apply list_lookup_insert_eq.
    + rewrite decide_False by (intros [_ ?]; done).
      apply list_lookup_insert_ne. lia.
  - rewrite lookup_insert_ne by done.
    by rewrite decide_False by (intros [-> _]; done).
Qed.

Lemma covers_ext tbl tbl' u k :
  (∀ r, GetNumSubresources tbl' r = GetNumSubresources tbl r) →
  covers tbl' u k ↔ covers tbl u k.
Proof. intros Hn. unfold covers. by rewrite Hn. Qed.

Lemma usage_in_range_ext tbl tbl' u :
  (∀ r, GetNumSubresources tbl' r = GetNumSubresources tbl r) →
  usage_in_range tbl u → usage_in_range tbl' u.
Proof. intros Hn. unfold usage_in_range. by rewrite Hn. Qed.

(** The inner loop: every listed index of [r] is recorded, nothing else. *)
Lemma record_range r st ks :
  ∀ tbl n,
    GetNumSubresources tbl r = Some n →
    (∀ k, k ∈ ks → k < n) →
    ∃ tbl',
      for_each (λ tbl' s, RecordState tbl' r s st) tbl ks = Some tbl' ∧
      (∀ r', GetNumSubresources tbl' r' = GetNumSubresources tbl r') ∧
      (∀ r' k', ReadState tbl' r' k' =
                if decide (r' = r ∧ k' ∈ ks) then Some st else ReadState tbl r' k').
Proof.
  induction ks as [|k0 ks IH]; intros tbl n Hn Hks.
  - exists tbl. split_and!; [done | done |]. intros r' k'.
    by rewrite decide_False by (intros [_ ?%elem_of_nil]; done).
  - pose proof Hn as (l & Hl & ->)%GetNumSubresources_Some.
    assert (Hk0 : (N.to_nat k0 < length l)%nat).
    { specialize (Hks k0 (list_elem_of_here _ _)). lia. }
    set (tbl1 := <[r := <[N.to_nat k0 := st]> l]> tbl).
    assert (Hn1 : ∀ r', GetNumSubresources tbl1 r' = GetNumSubresources tbl r')
      by (intros r'; by apply GetNumSubresources_record).
    destruct (IH tbl1 (N.of_nat (length l))) as (tbl' & Hrun & Hnum & Hread).
    { by rewrite Hn1. }
    { intros k Hk. apply Hks. by right. }
    exists tbl'. split_and!.
    + simpl. rewrite (RecordState_Some _ _ _ _ _ Hl Hk0). simpl. exact Hrun.
    + intros r'. by rewrite Hnum, Hn1.
    + intros r' k'. rewrite Hread. subst tbl1.
      rewrite (ReadState_record _ _ _ _ _ _ _ Hl Hk0).
      destruct (decide (r' = r ∧ k' ∈ ks)) as [[-> Hin]|Hout].
      * rewrite decide_True; [done|]. split; [done | by right].
      * destruct (decide (r' = r ∧ k' = k0)) as [[-> ->]|Hne].
        -- rewrite decide_True; [done|]. split; [done | left].
        -- rewrite decide_False; [done|].
           intros [-> [->|Hin]%elem_of_cons]; [by apply Hne | by apply Hout].
Qed.

(** One iteration of the outer loop records [lastState] on what the usage
    record covers and changes nothing else. *)
Lemma update_usage_ok tbl u :
  usage_in_range tbl u →
  ∃ tbl',
    update_usage tbl u = Some tbl' ∧
    (∀ r, GetNumSubresources tbl' r = GetNumSubresources tbl r) ∧
    (∀ r k, covers_pair tbl u r k → ReadState tbl' r k = Some (lastState u)) ∧
    (∀ r k, ¬ covers_pair tbl u r k → ReadState tbl' r k = ReadState tbl r k).
Proof.
  intros (n & Hn & Hsub). unfold update_usage.
  destruct (decide (subresource u = ALL_SUBRESOURCES)) as [Hall|Hone].
  - rewrite Hn. simpl.
    destruct (record_range (used_resource u) (lastState u) (subresource_range n)
                tbl n Hn) as (tbl' & Hrun & Hnum & Hread).
    { intros k. by rewrite elem_of_subresource_range. }
    exists tbl'. split_and!; [done | done | |].
    + intros r k [<- [[_ (n' & Hn' & Hk)]|[? _]]]; [|done].
      assert (n' = n) as -> by congruence.
      rewrite Hread, decide_True; [done|].
      split; [done | by apply elem_of_subresource_range].
    + intros r k Hnot. rewrite Hread, decide_False; [done|].
      intros [-> Hk%elem_of_subresource_range]. apply Hnot.
      split; [done|]. left. eauto.
  - destruct Hsub as [?|Hlt]; [done|].
    pose proof Hn as (l & Hl & ->)%GetNumSubresources_Some.
    assert (Hk : (N.to_nat (subresource u) < length l)%nat) by lia.
    eexists. split_and!.
    + by apply RecordState_Some.
    + intros r. by apply GetNumSubresources_record.
    + intros r k [<- [[? _]|[_ ->]]]; [done|].
      rewrite (ReadState_record _ _ _ _ _ _ _ Hl Hk). by rewrite decide_True.
    + intros r k Hnot. rewrite (ReadState_record _ _ _ _ _ _ _ Hl Hk).
      rewrite decide_False; [done|]. intros [-> ->]. apply Hnot.
      split; [done|]. by right.
Qed.

(** C2. For a usage list the table can serve, [UpdateResourceStates] returns
    a table with the same resources and subresource counts in which every
    (resource, subresource) pair covered by a usage record holds that record's
    [lastState] (the last covering record of the list, when several cover the
    pair), and every pair that no record of the list covers holds the state
    it had before. *)
Theorem UpdateResourceStates_sets_covered_only us :
  ∀ tbl,
    Forall (usage_in_range tbl) us →
    ∃ tbl',
      UpdateResourceStates tbl us = Some tbl' ∧
      (∀ r, GetNumSubresources tbl' r = GetNumSubresources tbl r) ∧
      (∀ us1 u us2 r k,
         us = us1 ++ u :: us2 →
         covers_pair tbl u r k →
         (∀ u', u' ∈ us2 → ¬ covers_pair tbl u' r k) →
         ReadState tbl' r k = Some (lastState u)) ∧
      (∀ r k,
         (∀ u, u ∈ us → ¬ covers_pair tbl u r k) →
         ReadState tbl' r k = ReadState tbl r k).
Proof.
  unfold UpdateResourceStates.
  induction us as [|u0 us IH]; intros tbl Hus.
  - exists tbl. split_and!; [done | done | | done].
    intros us1 u us2 r k Heq. by destruct us1.
  - apply Forall_cons in Hus as [Hu0 Hus].
    destruct (update_usage_ok tbl u0 Hu0) as (tbl1 & Hrun1 & Hnum1 & Hset1 & Hkeep1).
    assert (Hcov : ∀ u r k, covers_pair tbl1 u r k ↔ covers_pair tbl u r k).
    { intros u r k. unfold covers_pair. by rewrite (covers_ext tbl tbl1). }
    destruct (IH tbl1) as (tbl' & Hrun & Hnum & Hset & Hkeep).
    { eapply Forall_impl; [exact Hus|]. intros u. by apply usage_in_range_ext. }
    exists tbl'. split_and!.
    + simpl. rewrite Hrun1. simpl. exact Hrun.
    + intros r. by rewrite Hnum, Hnum1.
    + intros us1 u us2 r k Heq Hu Hlater. destruct us1 as [|u1 us1].
      * simpl in Heq. injection Heq as <- <-.
        rewrite Hkeep; [by apply Hset1|].
        intros u' Hu'. rewrite Hcov. by apply Hlater.
      * simpl in Heq. injection Heq as <- ->.
        apply (Hset us1 u us2); [done | by apply Hcov |].
        intros u' Hu'. rewrite Hcov. by apply Hlater.
    + intros r k Hnone. rewrite Hkeep.
      * apply Hkeep1, Hnone. left.
      * intros u Hu. rewrite Hcov. apply Hnone. by right.
Qed.

(** ** The parallel-compatibility walk *)

Lemma CanExecuteParallel_nil_l l2 : CanExecuteParallel [] l2 = true.
Proof. by destruct l2. Qed.

Lemma CanExecuteParallel_nil_r l1 : CanExecuteParallel l1 [] = true.
Proof. by destruct l1. Qed.

(** The loop body, one step at a time. *)
Lemma CanExecuteParallel_cons it1 l1 it2 l2 :
  CanExecuteParallel (it1 :: l1) (it2 :: l2) =
    if PtrLess (used_resource it1) (used_resource it2) then
      CanExecuteParallel l1 (it2 :: l2)
    else if PtrGreater (used_resource it1) (used_resource it2) then
      CanExecuteParallel (it1 :: l1) l2
    else if bool_decide (firstState it1 ≠ firstState it2)
            || multipleUse it1 || multipleUse it2 then
      false
    else
      CanExecuteParallel l1 l2.
Proof. reflexivity. Qed.

Lemma incompatible_check_false a b :
  bool_decide (firstState a ≠ firstState b) || multipleUse a || multipleUse b = false ↔
  firstState a = firstState b ∧ multipleUse a = false ∧ multipleUse b = false.
Proof.
  rewrite !orb_false_iff, bool_decide_eq_false. split.
  - intros [[Hf%dec_stable ?] ?]. done.
  - intros (? & ? & ?). split_and!; auto.
Qed.

(** The walk only ever answers [false] on a conflicting pair: without one it
    answers [true], whatever the order of the lists. *)
Lemma CanExecuteParallel_no_conflict l1 :
  ∀ l2,
    (∀ a b, a ∈ l1 → b ∈ l2 → ¬ conflicting a b) →
    CanExecuteParallel l1 l2 = true.
Proof.
  induction l1 as [|it1 l1 IH1]; intros l2; [intros _; apply CanExecuteParallel_nil_l|].
  induction l2 as [|it2 l2 IH2]; intros Hno; [done|].
  rewrite CanExecuteParallel_cons.
  destruct (PtrLess _ _) eqn:Hlt.
  { apply IH1. intros a b Ha Hb. apply Hno; [by right | done]. }
  destruct (PtrGreater _ _) eqn:Hgt.
  { apply IH2. intros a b Ha Hb. apply Hno; [done | by right]. }
  destruct (_ || _ || _) eqn:Hc.
  - exfalso. apply (Hno it1 it2); [left | left |].
    unfold PtrLess, PtrGreater in *.
    apply N.ltb_ge in Hlt, Hgt. split; [lia|].
    destruct (decide (firstState it1 = firstState it2)) as [Heq|]; [|by left].
    right. rewrite bool_decide_eq_false_2 in Hc by auto. simpl in Hc.
    by apply orb_true_iff in Hc.
  - apply IH1. intros a b Ha Hb. apply Hno; by right.
Qed.

(** On lists with one record per resource, in increasing order of resource
    identity, the walk meets every pair of records of a shared resource. *)
Lemma CanExecuteParallel_sound_unique l1 :
  ∀ l2,
    strictly_sorted_by_resource l1 → strictly_sorted_by_resource l2 →
    CanExecuteParallel l1 l2 = true →
    ∀ a b, a ∈ l1 → b ∈ l2 → ¬ conflicting a b.
Proof.
  unfold strictly_sorted_by_resource.
  induction l1 as [|it1 l1 IH1]; intros l2 Hs1; [by intros _ _ a b ?%elem_of_nil|].
  apply StronglySorted_inv in Hs1 as [Hs1 Hlt1]. rewrite Forall_forall in Hlt1.
  induction l2 as [|it2 l2 IH2]; intros Hs2; [by intros _ a b _ ?%elem_of_nil|].
  pose proof Hs2 as [Hs2' Hlt2]%StronglySorted_inv. rewrite Forall_forall in Hlt2.
  rewrite CanExecuteParallel_cons. unfold PtrLess, PtrGreater.
  intros Hrun a b Ha Hb [Hres Hbad].
  destruct (used_resource it1 <? used_resource it2) eqn:Hlt.
  { apply N.ltb_lt in Hlt. apply elem_of_cons in Ha as [->|Ha].
    - apply elem_of_cons in Hb as [->|Hb]; [lia|]. specialize (Hlt2 _ Hb). lia.
    - by apply (IH1 (it2 :: l2) Hs1 Hs2 Hrun a b Ha Hb). }
  apply N.ltb_ge in Hlt.
  destruct (used_resource it2 <? used_resource it1) eqn:Hgt.
  { apply N.ltb_lt in Hgt. apply elem_of_cons in Hb as [->|Hb].
    - apply elem_of_cons in Ha as [->|Ha]; [lia|]. specialize (Hlt1 _ Ha). lia.
    - by apply (IH2 Hs2' Hrun a b Ha Hb). }
  apply N.ltb_ge in Hgt.
  destruct (_ || _ || _) eqn:Hc; [done|].
  apply elem_of_cons in Ha as [->|Ha]; apply elem_of_cons in Hb as [->|Hb].
  - apply incompatible_check_false in Hc as (? & ? & ?).
    destruct Hbad as [?|[?|?]]; congruence.
  - specialize (Hlt2 _ Hb). lia.
  - specialize (Hlt1 _ Ha). lia.
  - by apply (IH1 l2 Hs1 Hs2' Hrun a b Ha Hb).
Qed.

(** C3. The walk misses a conflict when a resource has several records in a
    list: [usages_A] and [usages_B] are sorted by resource identity and their
    records of resource [1] have different first states, yet the walk answers
    [true]. *)
Theorem CanExecuteParallel_misses_conflict :
  sorted_by_resource usages_A ∧ sorted_by_resource usages_B ∧
  (∃ a b, a ∈ usages_A ∧ b ∈ usages_B ∧
          used_resource a = used_resource b ∧ subresource a = subresource b ∧
          firstState a ≠ firstState b) ∧
  CanExecuteParallel usages_A usages_B = true.
Proof.
  unfold sorted_by_resource, usages_A, usages_B. split_and!.
  - repeat constructor.
  - repeat constructor. unfold resource_le. simpl. lia.
  - eexists _, _. split_and!; [left | right; left | done | done | done].
  - reflexivity.
Qed.

(** C7. Two usage lists that share no resource are parallel-compatible; in
    particular the walk answers [true] as soon as one of the lists is
    empty. *)
Theorem CanExecuteParallel_disjoint l1 l2 :
  ((∀ a b, a ∈ l1 → b ∈ l2 → used_resource a ≠ used_resource b) →
   CanExecuteParallel l1 l2 = true) ∧
  CanExecuteParallel [] l2 = true ∧
  CanExecuteParallel l1 [] = true.
Proof.
  split_and!.
  - intros Hdisj. apply CanExecuteParallel_no_conflict.
    intros a b Ha Hb [Hres _]. by apply (Hdisj a b).
  - apply CanExecuteParallel_nil_l.
  - apply CanExecuteParallel_nil_r.
Qed.

(** ** The schedule builder *)

Section ReadyNodes.
Variable g : ListDigraph.

Lemma ready_true emitted n :
  ready g emitted n = true ↔ ∀ a, arc g a n → a ∈ emitted.
Proof.
  unfold ready, arc. rewrite forallb_forall. split.
  - intros Hall a Ha. apply list_elem_of_In, Hall in Ha. simpl in Ha.
    apply orb_true_iff in Ha as [Hne%bool_decide_eq_true|Hin%bool_decide_eq_true];
      done.
  - intros Hall [a b] Hab%list_elem_of_In. simpl.
    destruct (decide (b = n)) as [->|Hne].
    + rewrite (bool_decide_eq_true_2 (a ∈ emitted)); [apply orb_true_r | auto].
    + by rewrite bool_decide_eq_true_2.
Qed.

Lemma ready_false emitted n :
  ready g emitted n = false → ∃ a, arc g a n ∧ a ∉ emitted.
Proof.
  unfold ready, arc. induction (arcs g) as [|[a b] l IH]; simpl; [done|].
  intros [Hhd|Htl]%andb_false_iff.
  - apply orb_false_iff in Hhd as [Hb%bool_decide_eq_false Ha%bool_decide_eq_false].
    apply dec_stable in Hb as ->. exists a. split; [left | done].
  - destruct (IH Htl) as (a' & Ha' & Hout). exists a'. split; [by right | done].
Qed.

Lemma elem_of_ready_nodes emitted n :
  n ∈ ready_nodes g emitted ↔
  n ∈ nodes g ∧ (n ∉ emitted) ∧ ready g emitted n = true.
Proof.
  unfold ready_nodes. rewrite list_elem_of_filter.
  split; [intros [[? ?] ?] | intros (? & ? & ?)]; repeat split; assumption.
Qed.
End ReadyNodes.

(** The lowest identifier of a list. *)

Lemma foldr_min_le (n : N) l : foldr N.min n l ≤ n ∧ ∀ m, m ∈ l → foldr N.min n l ≤ m.
Proof.
  induction l as [|x l [IHn IHl]]; simpl.
  - split; [lia|]. by intros m ?%elem_of_nil.
  - split; [lia|]. intros m [->|Hm]%elem_of_cons; [lia|].
    specialize (IHl m Hm). lia.
Qed.

Lemma foldr_min_elem (n : N) l : foldr N.min n l = n ∨ foldr N.min n l ∈ l.
Proof.
  induction l as [|x l IH]; simpl; [by left|].
  destruct (N.min_spec x (foldr N.min n l)) as [[_ ->]|[_ ->]].
  - right. left.
  - destruct IH as [->|?]; [by left | right; by right].
Qed.

Lemma lowest_Some l n :
  lowest l = Some n ↔ n ∈ l ∧ ∀ m, m ∈ l → n ≤ m.
Proof.
  destruct l as [|x l]; simpl.
  - split; [done | by intros [?%elem_of_nil _]].
  - destruct (foldr_min_le x l) as [Hx Hl].
    split.
    + intros [= <-]. split.
      * destruct (foldr_min_elem x l) as [->|?]; [left | by right].
      * intros m [->|Hm]%elem_of_cons; auto.
    + intros [Hn Hmin]. f_equal. apply N.le_antisymm.
      * apply elem_of_cons in Hn as [->|Hn]; auto.
      * apply Hmin. destruct (foldr_min_elem x l) as [->|?]; [left | by right].
Qed.

Lemma lowest_None l : lowest l = None ↔ l = [].
Proof. by destruct l. Qed.

Lemma lowest_Permutation l1 l2 : l1 ≡ₚ l2 → lowest l1 = lowest l2.
Proof.
  intros Hp. destruct (lowest l1) as [n|] eqn:H1.
  - symmetry. apply lowest_Some in H1 as [Hn Hmin]. apply lowest_Some.
    split; [by rewrite <- Hp|]. intros m Hm. apply Hmin. by rewrite Hp.
  - apply lowest_None in H1 as ->. destruct l2; [done|].
    by apply Permutation_nil_cons in Hp.
Qed.

Section MakeSchedule.
Variable g : ListDigraph.
Variable tasks : N → GraphicsTask.

(** The choice among the ready nodes: a ready node, and the lowest
    identifier among the ready nodes of equal preference. *)
Lemma next_node_Some prev emitted n :
  next_node g tasks prev emitted = Some n →
  n ∈ ready_nodes g emitted ∧
  ∀ m, m ∈ ready_nodes g emitted →
       prefers tasks prev m = prefers tasks prev n → n ≤ m.
Proof.
  unfold next_node.
  destruct (lowest (filter _ _)) as [n'|] eqn:Hpref.
  - intros [= ->]. apply lowest_Some in Hpref as [Hn Hmin].
    apply list_elem_of_filter in Hn as [Hpn Hn]. split; [done|].
    intros m Hm Heq. apply Hmin, list_elem_of_filter. split; [congruence | done].
  - intros [Hn Hmin]%lowest_Some. split; [done|]. auto.
Qed.

Lemma next_node_is_Some prev emitted :
  ready_nodes g emitted ≠ [] → is_Some (next_node g tasks prev emitted).
Proof.
  intros Hne. unfold next_node.
  destruct (lowest (filter _ _)); [by eexists|].
  destruct (lowest (ready_nodes g emitted)) eqn:Hl; [by eexists|].
  by apply lowest_None in Hl.
Qed.
(** *** Progress: a graph without cycles always has a ready node *)

(** If every node that is left had an arc from a node that is left, one
    could walk backwards for ever without meeting a node twice. *)
Lemma backward_walk (emitted : list N) n0 :
  acyclic g →
  (∀ n, n ∈ nodes g → n ∉ emitted →
        ∃ a, a ∈ nodes g ∧ (a ∉ emitted) ∧ arc g a n) →
  n0 ∈ nodes g → n0 ∉ emitted →
  ∀ k : nat, ∃ x l,
    length l = k ∧ NoDup (x :: l) ∧
    (∀ y, y ∈ x :: l → y ∈ nodes g ∧ y ∉ emitted) ∧
    (∀ y, y ∈ l → tc (arc g) x y).
Proof.
  intros Hacyc Hpred Hn0 Hout. induction k as [|k (x & l & Hlen & Hnd & Hin & Hreach)].
  - exists n0, []. split_and!; [done | apply NoDup_singleton | |].
    + by intros y ->%list_elem_of_singleton.
    + by intros y ?%elem_of_nil.
  - destruct (Hin x) as [Hx Hxout]; [left|].
    destruct (Hpred x Hx Hxout) as (a & Ha & Haout & Hax).
    exists a, (x :: l). split_and!.
    + simpl. by rewrite Hlen.
    + apply NoDup_cons. split; [|done].
      intros [->|Hal]%elem_of_cons.
      * apply (Hacyc x). by apply tc_once.
      * apply (Hacyc a). eapply tc_l; [exact Hax | by apply Hreach].
    + intros y [->|Hy]%elem_of_cons; [done | by apply Hin].
    + intros y [->|Hy]%elem_of_cons; [by apply tc_once|].
      eapply tc_l; [exact Hax | by apply Hreach].
Qed.

Lemma ready_nodes_nonempty (emitted : list N) :
  acyclic g → arcs_closed g →
  (∃ n, n ∈ nodes g ∧ n ∉ emitted) →
  ready_nodes g emitted ≠ [].
Proof.
  intros Hacyc Hclosed (n0 & Hn0 & Hout) Hnil.
  destruct (backward_walk emitted n0 Hacyc) with (k := length (nodes g))
    as (x & l & Hlen & Hnd & Hin & _); [|done|done|].
  - intros n Hn Hnout.
    destruct (ready g emitted n) eqn:Hr.
    + assert (n ∈ ready_nodes g emitted) as Hrn by (by apply elem_of_ready_nodes).
      rewrite Hnil in Hrn. by apply elem_of_nil in Hrn.
    + destruct (ready_false _ _ _ Hr) as (a & Han & Haout).
      exists a. split_and!; [|done|done]. by apply (Hclosed a n).
  - assert (x :: l ⊆+ nodes g) as Hsub.
    { apply NoDup_submseteq; [done|]. intros y Hy. by apply Hin. }
    apply submseteq_length in Hsub. simpl in Hsub. lia.
Qed.

(** *** What the rounds emit *)

Lemma last_emitted_cons prev n l :
  last_emitted prev (n :: l) = last_emitted (Some n) l.
Proof.
  unfold last_emitted. destruct l as [|m l]; [done|].
  change (last (n :: m :: l)) with (last (m :: l)).
  by destruct (last (m :: l)) eqn:Hl; [|apply last_None in Hl].
Qed.

(** Every emitted node was the choice of its round. *)
Lemma schedule_from_split fuel :
  ∀ prev emitted l1 n l2,
    schedule_from g tasks fuel prev emitted = l1 ++ n :: l2 →
    next_node g tasks (last_emitted prev l1) (reverse l1 ++ emitted) = Some n.
Proof.
  induction fuel as [|fuel IH]; intros prev emitted l1 n l2; simpl.
  - by destruct l1.
  - destruct (next_node g tasks prev emitted) as [n0|] eqn:Hnext; [|by destruct l1].
    destruct l1 as [|n1 l1]; simpl.
    + by intros [= <- _].
    + intros [= <- Hrest]. apply IH in Hrest.
      rewrite last_emitted_cons, reverse_cons, <- app_assoc. exact Hrest.
Qed.

Lemma length_filter_out_le (emitted : list N) n0 (l : list N) :
  (length (filter (λ x, x ∉ n0 :: emitted) l) ≤
   length (filter (λ x, x ∉ emitted) l))%nat.
Proof.
  induction l as [|x l IH]; [done|].
  destruct (decide (x ∉ n0 :: emitted)) as [Hx|Hx].
  - rewrite filter_cons_True by done.
    rewrite (filter_cons_True (λ x, x ∉ emitted)).
    + simpl. lia.
    + intros ?. apply Hx. by right.
  - rewrite filter_cons_False by done.
    destruct (decide (x ∉ emitted)).
    + rewrite (filter_cons_True (λ x, x ∉ emitted)) by done. simpl. lia.
    + by rewrite (filter_cons_False (λ x, x ∉ emitted)).
Qed.

Lemma length_filter_out_lt (emitted : list N) n0 (l : list N) :
  n0 ∈ l → n0 ∉ emitted →
  (length (filter (λ x, x ∉ n0 :: emitted) l) <
   length (filter (λ x, x ∉ emitted) l))%nat.
Proof.
  intros Hin Hout. induction l as [|x l IH]; [by apply elem_of_nil in Hin|].
  destruct (decide (x = n0)) as [->|Hne].
  - rewrite filter_cons_False by (intros H; apply H; left).
    rewrite (filter_cons_True (λ x, x ∉ emitted)) by done.
    pose proof (length_filter_out_le emitted n0 l). simpl. lia.
  - apply elem_of_cons in Hin as [?|Hin]; [done|]. specialize (IH Hin).
    destruct (decide (x ∈ emitted)) as [Hx|Hx].
    + rewrite filter_cons_False by (intros H; apply H; by right).
      by rewrite (filter_cons_False (λ x, x ∉ emitted)) by auto.
    + rewrite filter_cons_True by (intros [?|?]%elem_of_cons; done).
      rewrite (filter_cons_True (λ x, x ∉ emitted)) by done. simpl. lia.
Qed.

(** With enough rounds, every node that is left is emitted. *)
Lemma schedule_from_complete fuel :
  acyclic g → arcs_closed g →
  ∀ prev emitted,
    (length (filter (λ x, x ∉ emitted) (nodes g)) ≤ fuel)%nat →
    ∀ n, n ∈ nodes g → n ∉ emitted →
         n ∈ schedule_from g tasks fuel prev emitted.
Proof.
  intros Hacyc Hclosed.
  induction fuel as [|fuel IH]; intros prev emitted Hfuel n Hn Hout.
  - assert (n ∈ filter (λ x, x ∉ emitted) (nodes g)) as Hf
      by (by apply list_elem_of_filter).
    destruct (filter _ _); [by apply elem_of_nil in Hf | simpl in Hfuel; lia].
  - simpl.
    destruct (next_node_is_Some prev emitted) as [n0 Hnext].
    { apply ready_nodes_nonempty; eauto. }
    rewrite Hnext.
    pose proof (next_node_Some _ _ _ Hnext) as [Hn0 _].
    apply elem_of_ready_nodes in Hn0 as (Hn0 & Hn0out & _).
    destruct (decide (n = n0)) as [->|Hne]; [left|]. right.
    apply IH; [|done|].
    + pose proof (length_filter_out_lt emitted n0 (nodes g) Hn0 Hn0out). lia.
    + intros [?|?]%elem_of_cons; done.
Qed.

Lemma schedule_order_split l1 n l2 :
  schedule_order g tasks = l1 ++ n :: l2 →
  n ∈ nodes g ∧ (n ∉ l1) ∧ ∀ a, arc g a n → a ∈ l1.
Proof.
  intros Hsplit%schedule_from_split. rewrite app_nil_r in Hsplit.
  apply next_node_Some in Hsplit as [(Hn & Hout & Hr)%elem_of_ready_nodes _].
  split_and!; [done | by rewrite <- elem_of_reverse |].
  intros a Ha. rewrite <- elem_of_reverse. by apply (proj1 (ready_true _ _ _) Hr).
Qed.

Lemma schedule_order_NoDup : NoDup (schedule_order g tasks).
Proof.
  generalize (schedule_order_split).
  induction (schedule_order g tasks) as [|n l IH] using rev_ind; intros Hsplit.
  - constructor.
  - apply NoDup_app. split_and!.
    + apply IH. intros l1 m l2 Heq. apply (Hsplit l1 m (l2 ++ [n])).
      rewrite Heq. by rewrite <- !app_assoc.
    + intros m Hm ->%list_elem_of_singleton.
      by destruct (Hsplit l n []) as (_ & ? & _).
    + apply NoDup_singleton.
Qed.

Lemma schedule_order_nodes :
  acyclic g → arcs_closed g →
  ∀ n, n ∈ schedule_order g tasks ↔ n ∈ nodes g.
Proof.
  intros Hacyc Hclosed n. split.
  - intros (l1 & l2 & Heq)%list_elem_of_split.
    by destruct (schedule_order_split l1 n l2 Heq).
  - intros Hn. apply schedule_from_complete; [done | done | | done |].
    + apply length_filter.
    + by intros ?%elem_of_nil.
Qed.

Lemma schedule_order_precedes a b :
  acyclic g → arcs_closed g →
  arc g a b → precedes a b (schedule_order g tasks).
Proof.
  intros Hacyc Hclosed Hab.
  assert (b ∈ schedule_order g tasks) as (l1 & l3 & Heq)%list_elem_of_split.
  { apply schedule_order_nodes; [done | done |]. by apply (Hclosed a b). }
  destruct (schedule_order_split l1 b l3 Heq) as (_ & _ & Hpre).
  destruct (list_elem_of_split _ _ (Hpre a Hab)) as (l1a & l1b & ->).
  exists l1a, l1b, l3. by rewrite Heq, <- app_assoc.
Qed.
End MakeSchedule.

(** ** The submission follows the schedule *)

Lemma precedes_cons {A : Type} (x y z : A) l :
  precedes x y l → precedes x y (z :: l).
Proof. intros (l1 & l2 & l3 & ->). by exists (z :: l1), l2, l3. Qed.

Lemma precedes_fmap {A B : Type} (f : A → B) x y l :
  precedes x y l → precedes (f x) (f y) (f <$> l).
Proof.
  intros (l1 & l2 & l3 & ->). exists (f <$> l1), (f <$> l2), (f <$> l3).
  by rewrite fmap_app, fmap_cons, fmap_app, fmap_cons.
Qed.

Lemma Assemble_cons_inv tbl t schedule submission tbl' :
  Assemble tbl (t :: schedule) = Some (submission, tbl') →
  ∃ barriers tbl1 rest,
    InjectBarriers tbl (task_usages t) = Some barriers ∧
    UpdateResourceStates tbl (task_usages t) = Some tbl1 ∧
    Assemble tbl1 schedule = Some (rest, tbl') ∧
    submission =
      SubmitBarriers barriers :: SubmitCommandList (task_commands t) :: rest.
Proof.
  simpl. intros H.
  destruct (InjectBarriers tbl (task_usages t)) as [barriers|]; [|done].
  destruct (UpdateResourceStates tbl (task_usages t)) as [tbl1|]; [|done].
  simpl in H.
  destruct (Assemble tbl1 schedule) as [[rest tbl'']|] eqn:Hrest; [|done].
  simpl in H. simplify_eq. by exists barriers, tbl1, rest.
Qed.

Lemma Assemble_app_inv schedule1 :
  ∀ tbl schedule2 submission tbl',
    Assemble tbl (schedule1 ++ schedule2) = Some (submission, tbl') →
    ∃ sub1 tbl1 sub2,
      Assemble tbl schedule1 = Some (sub1, tbl1) ∧
      Assemble tbl1 schedule2 = Some (sub2, tbl') ∧
      submission = sub1 ++ sub2.
Proof.
  induction schedule1 as [|t schedule1 IH]; intros tbl schedule2 submission tbl' H.
  - by exists [], tbl, submission.
  - apply Assemble_cons_inv in H as (bs & tbl1 & rest & Hb & Hu & Hrest & ->).
    apply IH in Hrest as (sub1 & tbl2 & sub2 & H1 & H2 & ->).
    exists (SubmitBarriers bs :: SubmitCommandList (task_commands t) :: sub1),
      tbl2, sub2.
    split_and!; [|done|done]. simpl. rewrite Hb, Hu. simpl. by rewrite H1.
Qed.

(** The command lists of the submission are in the order of the schedule. *)
Lemma Assemble_precedes tbl ta tb schedule submission tbl' :
  precedes ta tb schedule →
  Assemble tbl schedule = Some (submission, tbl') →
  precedes (SubmitCommandList (task_commands ta))
           (SubmitCommandList (task_commands tb)) submission.
Proof.
  intros (l1 & l2 & l3 & ->) H.
  apply Assemble_app_inv in H as (s1 & tbl1 & sa & _ & H & ->).
  apply Assemble_cons_inv in H as (bsa & tbl2 & ra & _ & _ & H & ->).
  apply Assemble_app_inv in H as (s2 & tbl3 & sb & _ & H & ->).
  apply Assemble_cons_inv in H as (bsb & tbl4 & s3 & _ & _ & _ & ->).
  exists (s1 ++ [SubmitBarriers bsa]), (s2 ++ [SubmitBarriers bsb]), s3.
  by rewrite <- !app_assoc.
Qed.

Lemma run_frame_inr sched context tbl submission tbl' :
  run_frame sched context tbl = inr (submission, tbl') →
  Assemble tbl (frame_schedule sched context) = Some (submission, tbl').
Proof.
  unfold run_frame.
  destruct (first_throw task_Setup _); [done|].
  destruct (first_throw task_Execute _); [done|].
  destruct (Assemble tbl _) as [[sub tbl1]|]; [|done].
  destruct (forallb _ _); [|done]. by intros [= <- <-].
Qed.

(** C4. In a pipeline whose graph has no cycle and no dangling arc, the
    schedule builder emits every node exactly once, and for every arc from
    [a] to [b] the node [a] comes before [b] in the order, the task of [a]
    before the task of [b] in the task sequence, and, in a frame that is
    submitted, the command list of [a]'s task before that of [b]'s task in
    the submission: the order is a topological order of the graph. *)
Theorem MakeSchedule_topological sched :
  let g := taskGraph (m_pipeline sched) in
  let tasks := taskFunctionMap (m_pipeline sched) in
  acyclic g → arcs_closed g →
  NoDup (schedule_order g tasks) ∧
  (∀ n, n ∈ schedule_order g tasks ↔ n ∈ nodes g) ∧
  ∀ a b, arc g a b →
    precedes a b (schedule_order g tasks) ∧
    precedes (tasks a) (tasks b) (MakeSchedule g tasks) ∧
    ∀ context tbl,
      reported (Execute sched context tbl) = None →
      precedes (SubmitCommandList (task_commands (tasks a)))
               (SubmitCommandList (task_commands (tasks b)))
               (submitted (Execute sched context tbl)).
Proof.
  intros g tasks Hacyc Hclosed. split_and!.
  - apply schedule_order_NoDup.
  - by apply schedule_order_nodes.
  - intros a b Hab.
    pose proof (schedule_order_precedes g tasks a b Hacyc Hclosed Hab) as Hord.
    assert (Htasks : precedes (tasks a) (tasks b) (MakeSchedule g tasks))
      by (by apply precedes_fmap).
    split_and!; [done | done |].
    intros context tbl. unfold Execute, ExecuteParallel, ExecuteSerial.
    destruct (run_frame sched context tbl) as [[e tbl']|[submission tbl']] eqn:Hrun;
      [done|]. intros _. simpl.
    apply run_frame_inr in Hrun.
    eapply Assemble_precedes; [|exact Hrun].
    by apply precedes_cons.
Qed.

(** ** The schedule depends on the graph only *)

Lemma ready_ext g1 g2 emitted n :
  arcs g1 ≡ₚ arcs g2 → ready g1 emitted n = ready g2 emitted n.
Proof.
  intros Harcs. apply eq_iff_eq_true. rewrite !ready_true. unfold arc.
  by setoid_rewrite Harcs.
Qed.

Lemma ready_nodes_ext g1 g2 emitted :
  nodes g1 ≡ₚ nodes g2 → arcs g1 ≡ₚ arcs g2 →
  ready_nodes g1 emitted ≡ₚ ready_nodes g2 emitted.
Proof.
  intros Hnodes Harcs. unfold ready_nodes. rewrite Hnodes.
  erewrite list_filter_iff; [done|].
  intros n. simpl. by rewrite (ready_ext g1 g2).
Qed.

Lemma prefers_ext tasks1 tasks2 prev n :
  (∀ n, tasks1 n = tasks2 n) → prefers tasks1 prev n = prefers tasks2 prev n.
Proof. intros Ht. destruct prev as [p|]; simpl; [|done]. by rewrite !Ht. Qed.

Lemma next_node_ext g1 g2 tasks1 tasks2 prev emitted :
  nodes g1 ≡ₚ nodes g2 → arcs g1 ≡ₚ arcs g2 → (∀ n, tasks1 n = tasks2 n) →
  next_node g1 tasks1 prev emitted = next_node g2 tasks2 prev emitted.
Proof.
  intros Hnodes Harcs Ht. unfold next_node.
  pose proof (ready_nodes_ext g1 g2 emitted Hnodes Harcs) as Hr.
  rewrite (lowest_Permutation _ _ Hr).
  assert (filter (λ n, prefers tasks1 prev n = true) (ready_nodes g1 emitted) ≡ₚ
          filter (λ n, prefers tasks2 prev n = true) (ready_nodes g2 emitted)) as Hp.
  { rewrite Hr. erewrite list_filter_iff; [done|].
    intros n. simpl. by rewrite (prefers_ext tasks1 tasks2). }
  by rewrite (lowest_Permutation _ _ Hp).
Qed.

Lemma schedule_from_ext g1 g2 tasks1 tasks2 fuel :
  nodes g1 ≡ₚ nodes g2 → arcs g1 ≡ₚ arcs g2 → (∀ n, tasks1 n = tasks2 n) →
  ∀ prev emitted,
    schedule_from g1 tasks1 fuel prev emitted =
    schedule_from g2 tasks2 fuel prev emitted.
Proof.
  intros Hnodes Harcs Ht. induction fuel as [|fuel IH]; intros prev emitted; [done|].
  simpl. rewrite (next_node_ext g1 g2 tasks1 tasks2) by done.
  destruct (next_node g2 tasks2 prev emitted); [|done]. by rewrite IH.
Qed.

(** C5. The schedule is a function of the shape of the graph and of the
    identifiers of its nodes alone: two pipelines with the same nodes, the
    same arcs (in whatever order they are stored) and the same tasks get the
    same task sequence, hence the same submission with the same barriers;
    and in every round the node emitted has the lowest identifier among the
    ready nodes of equal preference. *)
Theorem MakeSchedule_deterministic g1 g2 tasks1 tasks2 :
  nodes g1 ≡ₚ nodes g2 → arcs g1 ≡ₚ arcs g2 → (∀ n, tasks1 n = tasks2 n) →
  MakeSchedule g1 tasks1 = MakeSchedule g2 tasks2 ∧
  (∀ tbl, Assemble tbl (MakeSchedule g1 tasks1) =
          Assemble tbl (MakeSchedule g2 tasks2)) ∧
  (∀ l1 n l2, schedule_order g1 tasks1 = l1 ++ n :: l2 →
     ∀ m, m ∈ nodes g1 → m ∉ l1 → (∀ a, arc g1 a m → a ∈ l1) →
          prefers tasks1 (last l1) m = prefers tasks1 (last l1) n →
          n ≤ m).
Proof.
  intros Hnodes Harcs Ht.
  assert (Heq : MakeSchedule g1 tasks1 = MakeSchedule g2 tasks2).
  { unfold MakeSchedule, schedule_order. rewrite (Permutation_length Hnodes).
    rewrite (schedule_from_ext g1 g2 tasks1 tasks2) by done.
    apply list_fmap_ext. intros _ n _. apply Ht. }
  split_and!; [done | by intros tbl; rewrite Heq |].
  intros l1 n l2 Hsplit%schedule_from_split m Hm Hout Hpre Hpref.
  rewrite app_nil_r in Hsplit.
  assert (last_emitted None l1 = last l1) as Hlast
    by (unfold last_emitted; by destruct (last l1)).
  rewrite Hlast in Hsplit.
  apply next_node_Some in Hsplit as [_ Hmin]. apply Hmin; [|done].
  apply elem_of_ready_nodes.
  split; [done|]. split; [by rewrite elem_of_reverse|].
  apply ready_true. intros a Ha. rewrite elem_of_reverse. by apply Hpre.
Qed.

(** ** The failure path *)









(** ** The life cycle of the pipeline *)




(** ** The resource heaps *)

(** C9. [UploadToResource] throws [InvalidArgument] exactly when the size of
    the target buffer is smaller than the size of the upload, and then it
    leaves the heap, with its list of staged resources and its graphics API,
    and the command list as they were. *)
Theorem UploadToResource_InvalidArgument heap cmdList target data size :
  ((∃ message argument,
      (UploadToResource heap cmdList target data size).1.1 =
        Thrown (InvalidArgument message argument))
   ↔ GetSize target < size) ∧
  (GetSize target < size →
     (UploadToResource heap cmdList target data size).1.2 = heap ∧
     (UploadToResource heap cmdList target data size).2 = cmdList).
Proof.
  unfold UploadToResource.
  destruct (decide (GetSize target < size)) as [Hlt|Hge]; simpl.
  - split; [|done]. split; [done|]. intros _. by eexists _, _.
  - split; [|done]. split; [|done]. intros (message & argument & H).
    unfold CreateCommittedResource in H.
    destruct (decide (api_native_create (m_graphicsApi heap) (Buffer size) = 0%Z));
      simpl in H; discriminate.
Qed.

(** C10. [CriticalBufferHeap::ReleaseUnderlying] changes nothing: the heap
    after the call is the heap before it, and what [m_resources] held it
    still holds, [owner] included. *)
Theorem ReleaseUnderlying_no_effect heap owner :
  CriticalBufferHeap_ReleaseUnderlying heap owner = heap ∧
  ∀ r, r ∈ cbh_resources heap ↔
       r ∈ cbh_resources (CriticalBufferHeap_ReleaseUnderlying heap owner).
Proof. done. Qed.

(** ** The scenarios, evaluated *)

Example fanout_barriers :
  InjectBarriers fanout_table fanout_usages =
    Some [mkTransitionBarrier 7 COMMON COPY_DEST 0 NORMAL;
          mkTransitionBarrier 7 COMMON COPY_DEST 1 NORMAL;
          mkTransitionBarrier 7 RENDER_TARGET COPY_DEST 2 NORMAL;
          mkTransitionBarrier 7 COMMON COPY_DEST 3 NORMAL].
Proof. vm_compute. reflexivity. Qed.

Example fanout_update :
  map_to_list <$> UpdateResourceStates fanout_table fanout_usages =
    Some [(7, [COPY_DEST; COPY_DEST; COPY_DEST; COPY_DEST])].
Proof. vm_compute. reflexivity. Qed.

Example chain_submission :
  fst <$> Assemble chain_table
            [mkGraphicsTask (inr chain_usages_A) (inr []) [];
             mkGraphicsTask (inr chain_usages_B) (inr []) []] =
    Some [SubmitBarriers [mkTransitionBarrier 3 COMMON RENDER_TARGET 0 NORMAL];
          SubmitCommandList [];
          SubmitBarriers
            [mkTransitionBarrier 3 RENDER_TARGET SHADER_RESOURCE 0 NORMAL];
          SubmitCommandList []].
Proof. vm_compute. reflexivity. Qed.

Example out_of_range_usage :
  InjectBarriers chain_table [mkUsedResource 3 1 COMMON COMMON false] = None.
Proof. vm_compute. reflexivity. Qed.

Example compatible_pair :
  CanExecuteParallel chain_usages_B chain_usages_B = true ∧
  CanExecuteParallel chain_usages_A chain_usages_B = false.
Proof. split; reflexivity. Qed.

Example diamond_order : schedule_order diamond diamond_tasks = [1; 2; 3; 4].
Proof. vm_compute. reflexivity. Qed.

Example fan_order : schedule_order fan fan_tasks = [1; 2; 4; 3; 5].
Proof. vm_compute. reflexivity. Qed.

Example cycle_order :
  schedule_order (mkListDigraph [1; 2] [(1, 2); (2, 1)]) diamond_tasks = [].
Proof. vm_compute. reflexivity. Qed.

Example upload_fits :
  UploadToResource fresh_heap [] large_buffer four_bytes 4 =
    (Returned,
     mkUploadHeap
       (mkGraphicsApi [mkDeviceResource UPLOAD NONE (Buffer 4) COPY_DEST four_bytes]
                      (api_native_create (m_graphicsApi fresh_heap)))
       [mkGenericResource (mkDescriptorReference None None None) 0 true],
     [CmdResourceBarrier
        (mkTransitionBarrier 0 COPY_DEST COPY_SOURCE 0xffffffff NORMAL);
      CmdRegisterResourceTransition 5 0xffffffff COPY_DEST;
      CmdCopyBuffer 5 0 0 0 4]).
Proof. reflexivity. Qed.

(** ** Recognising well-formed graphs *)

Lemma acyclic_increasing g :
  Forall (λ e, fst e < snd e) (arcs g) → acyclic g.
Proof.
  intros Hinc. rewrite Forall_forall in Hinc.
  assert (Hlt : ∀ a b, tc (arc g) a b → a < b).
  { induction 1 as [a b Hab|a b c Hab _ IH].
    - exact (Hinc (a, b) Hab).
    - pose proof (Hinc (a, b) Hab). simpl in *. lia. }
  intros n Hn%Hlt. lia.
Qed.

Lemma arcs_closed_Forall g :
  Forall (λ e, fst e ∈ nodes g ∧ snd e ∈ nodes g) (arcs g) → arcs_closed g.
Proof.
  intros Hall a b Hab. rewrite Forall_forall in Hall. exact (Hall (a, b) Hab).
Qed.

(** ** The theorems at the scenarios *)

Lemma InjectBarriers_emits_exactly_needed_witness :
  Forall (usage_in_range fanout_table) fanout_usages ∧
  ∃ per,
    InjectBarriers fanout_table fanout_usages = Some (concat per) ∧
    Forall2 (barriers_of_usage fanout_table) fanout_usages per ∧
    (∀ b, b ∈ concat per → beforeState b ≠ afterState b).
Proof.
  assert (H : Forall (usage_in_range fanout_table) fanout_usages).
  { repeat constructor. exists 4. split; [vm_compute; reflexivity | left; reflexivity]. }
  split; [exact H|].
  exact (InjectBarriers_emits_exactly_needed fanout_table fanout_usages H).
Defined.

Lemma UpdateResourceStates_sets_covered_only_witness :
  Forall (usage_in_range fanout_table) fanout_usages ∧
  ∃ tbl',
    UpdateResourceStates fanout_table fanout_usages = Some tbl' ∧
    (∀ r, GetNumSubresources tbl' r = GetNumSubresources fanout_table r) ∧
    (∀ us1 u us2 r k,
       fanout_usages = us1 ++ u :: us2 →
       covers_pair fanout_table u r k →
       (∀ u', u' ∈ us2 → ¬ covers_pair fanout_table u' r k) →
       ReadState tbl' r k = Some (lastState u)) ∧
    (∀ r k,
       (∀ u, u ∈ fanout_usages → ¬ covers_pair fanout_table u r k) →
       ReadState tbl' r k = ReadState fanout_table r k).
Proof.
  assert (H : Forall (usage_in_range fanout_table) fanout_usages).
  { repeat constructor. exists 4. split; [vm_compute; reflexivity | left; reflexivity]. }
  split; [exact H|].
  exact (UpdateResourceStates_sets_covered_only fanout_usages fanout_table H).
Defined.

Lemma CanExecuteParallel_disjoint_witness :
  (∀ a b, a ∈ chain_usages_A → b ∈ fanout_usages →
          used_resource a ≠ used_resource b) ∧
  CanExecuteParallel chain_usages_A fanout_usages = true.
Proof.
  assert (H : ∀ a b, a ∈ chain_usages_A → b ∈ fanout_usages →
                     used_resource a ≠ used_resource b).
  { intros a b ->%list_elem_of_singleton ->%list_elem_of_singleton. simpl. lia. }
  split; [exact H|].
  exact (proj1 (CanExecuteParallel_disjoint chain_usages_A fanout_usages) H).
Defined.

Lemma diamond_acyclic : acyclic diamond.
Proof. apply acyclic_increasing. repeat constructor. Qed.

Lemma diamond_closed : arcs_closed diamond.
Proof.
  apply arcs_closed_Forall. repeat (constructor; [split; apply list_elem_of_In; simpl; tauto|]).
  constructor.
Qed.

Lemma MakeSchedule_topological_witness :
  acyclic diamond ∧ arcs_closed diamond ∧
  NoDup (schedule_order diamond diamond_tasks) ∧
  (∀ n, n ∈ schedule_order diamond diamond_tasks ↔ n ∈ nodes diamond) ∧
  ∀ a b, arc diamond a b →
    precedes a b (schedule_order diamond diamond_tasks) ∧
    precedes (diamond_tasks a) (diamond_tasks b)
             (MakeSchedule diamond diamond_tasks) ∧
    ∀ context tbl,
      reported (Execute diamond_scheduler context tbl) = None →
      precedes (SubmitCommandList (task_commands (diamond_tasks a)))
               (SubmitCommandList (task_commands (diamond_tasks b)))
               (submitted (Execute diamond_scheduler context tbl)).
Proof.
  split; [exact diamond_acyclic|]. split; [exact diamond_closed|].
  exact (MakeSchedule_topological diamond_scheduler diamond_acyclic diamond_closed).
Defined.

Lemma MakeSchedule_deterministic_witness :
  nodes diamond ≡ₚ nodes diamond_reordered ∧
  arcs diamond ≡ₚ arcs diamond_reordered ∧
  (∀ n, diamond_tasks n = diamond_tasks n) ∧
  MakeSchedule diamond diamond_tasks = MakeSchedule diamond_reordered diamond_tasks ∧
  (∀ tbl, Assemble tbl (MakeSchedule diamond diamond_tasks) =
          Assemble tbl (MakeSchedule diamond_reordered diamond_tasks)) ∧
  (∀ l1 n l2, schedule_order diamond diamond_tasks = l1 ++ n :: l2 →
     ∀ m, m ∈ nodes diamond → m ∉ l1 → (∀ a, arc diamond a m → a ∈ l1) →
          prefers diamond_tasks (last l1) m = prefers diamond_tasks (last l1) n →
          n ≤ m).
Proof.
  assert (Hn : nodes diamond ≡ₚ nodes diamond_reordered) by apply perm_swap.
  assert (Ha : arcs diamond ≡ₚ arcs diamond_reordered) by apply perm_swap.
  split; [exact Hn|]. split; [exact Ha|]. split; [reflexivity|].
  exact (MakeSchedule_deterministic diamond diamond_reordered
           diamond_tasks diamond_tasks Hn Ha (λ n, eq_refl)).
Defined.




Lemma UploadToResource_InvalidArgument_witness :
  GetSize small_buffer < 4 ∧
  (UploadToResource fresh_heap [] small_buffer four_bytes 4).1.2 = fresh_heap ∧
  (UploadToResource fresh_heap [] small_buffer four_bytes 4).2 = [].
Proof.
  assert (H : GetSize small_buffer < 4) by (simpl; lia).
  split; [exact H|].
  exact (proj2 (UploadToResource_InvalidArgument fresh_heap [] small_buffer
                  four_bytes 4) H).
Defined.

(** ** Barrier injection, continued *)

Lemma inject_subresource_acc tbl r t bs k :
  inject_subresource tbl r t bs k = (bs ++.) <$> inject_subresource tbl r t [] k.
Proof.
  unfold inject_subresource. destruct (ReadState tbl r k) as [st|]; simpl; [|done].
  destruct (decide (st ≠ t)); simpl; [done | by rewrite app_nil_r].
Qed.

Lemma for_each_acc {A B : Type} (body : list B → A → option (list B)) xs :
  (∀ bs x, body bs x = (bs ++.) <$> body [] x) →
  ∀ bs, for_each body bs xs = (bs ++.) <$> for_each body [] xs.
Proof.
  intros Hbody. induction xs as [|x xs IH]; intros bs; simpl.
  - by rewrite app_nil_r.
  - rewrite (Hbody bs x). destruct (body [] x) as [bs1|]; simpl; [|done].
    rewrite (IH (bs ++ bs1)), (IH bs1).
    destruct (for_each body [] xs) as [bs2|]; simpl; [|done].
    by rewrite app_assoc.
Qed.

Lemma inject_usage_acc tbl bs u :
  inject_usage tbl bs u = (bs ++.) <$> inject_usage tbl [] u.
Proof.
  unfold inject_usage. destruct (decide (subresource u ≠ ALL_SUBRESOURCES)) as [?|?].
  - apply inject_subresource_acc.
  - destruct (GetNumSubresources tbl (used_resource u)) as [m|]; simpl; [|done].
    apply for_each_acc. intros bs' k. apply inject_subresource_acc.
Qed.

(** X1. The barriers of two usage lists taken together are the barriers of
    the first followed by the barriers of the second, and the call fails as
    soon as it fails on one of them: the table is only read. *)
Theorem InjectBarriers_app tbl us1 us2 :
  InjectBarriers tbl (us1 ++ us2) =
    bs1 ← InjectBarriers tbl us1; bs2 ← InjectBarriers tbl us2; Some (bs1 ++ bs2).
Proof.
  unfold InjectBarriers. rewrite for_each_app.
  destruct (for_each (inject_usage tbl) [] us1) as [bs1|]; simpl; [|done].
  rewrite (for_each_acc (inject_usage tbl) us2 (inject_usage_acc tbl) bs1).
  by destruct (for_each (inject_usage tbl) [] us2).
Qed.

Lemma StronglySorted_subresource_range n :
  StronglySorted N.lt (subresource_range n).
Proof.
  unfold subresource_range. generalize 0%nat.
  induction (N.to_nat n) as [|m IH]; intros i; simpl; [constructor|].
  constructor; [apply IH|].
  apply Forall_forall. intros k (j & -> & Hj)%list_elem_of_fmap.
  apply list_elem_of_In, in_seq in Hj. lia.
Qed.

Lemma inject_sorted tbl r t ks :
  StronglySorted N.lt ks →
  ∀ bs, for_each (inject_subresource tbl r t) [] ks = Some bs →
        StronglySorted (λ a b, subResource a < subResource b) bs ∧
        ∀ b, b ∈ bs → subResource b ∈ ks.
Proof.
  induction 1 as [|k0 ks Hs IH Hlt]; intros bs; simpl.
  - intros [= <-]. split; [constructor | by intros b ?%elem_of_nil].
  - destruct (inject_subresource tbl r t [] k0) as [tr|] eqn:Hk0; simpl; [|done].
    rewrite (for_each_acc _ ks (inject_subresource_acc tbl r t) tr).
    destruct (for_each _ [] ks) as [bs2|]; simpl; [|done]. intros [= <-].
    destruct (IH bs2 eq_refl) as [Hsorted Hin].
    assert (Htr : tr = [] ∨ ∃ b0, tr = [b0] ∧ subResource b0 = k0).
    { unfold inject_subresource in Hk0.
      destruct (ReadState tbl r k0) as [st|]; simpl in Hk0; [|done].
      destruct (decide (st ≠ t)); simplify_eq; [right | by left].
      by eexists. }
    rewrite Forall_forall in Hlt.
    destruct Htr as [->|(b0 & -> & Hb0)]; simpl.
    + split; [done|]. intros b Hb. right. by apply Hin.
    + split.
      * constructor; [done|]. apply Forall_forall. intros b Hb. rewrite Hb0.
        apply Hlt, Hin, Hb.
      * intros b [->|Hb]%elem_of_cons; [rewrite Hb0; left | right; by apply Hin].
Qed.

(** X2. The barriers emitted for one usage record come in strictly
    increasing order of subresource index, so no subresource gets two. *)
Theorem InjectBarriers_batch_sorted tbl u bs :
  InjectBarriers tbl [u] = Some bs →
  StronglySorted (λ a b, subResource a < subResource b) bs.
Proof.
  unfold InjectBarriers. simpl.
  destruct (inject_usage tbl [] u) as [bs'|] eqn:Hu; simpl; [|done].
  intros [= <-]. unfold inject_usage in Hu.
  destruct (decide (subresource u ≠ ALL_SUBRESOURCES)) as [?|?].
  - apply (inject_sorted tbl (used_resource u) (firstState u) [subresource u]).
    + repeat constructor.
    + simpl. by destruct (inject_subresource _ _ _ _ _).
  - destruct (GetNumSubresources tbl (used_resource u)) as [m|]; simpl in Hu; [|done].
    eapply inject_sorted; [apply StronglySorted_subresource_range | exact Hu].
Qed.

(** No barrier is emitted exactly when every covered subresource is in the
    first state asked for. *)
Lemma InjectBarriers_none_needed tbl us :
  Forall (usage_in_range tbl) us →
  (InjectBarriers tbl us = Some [] ↔
   ∀ u k, u ∈ us → covers tbl u k →
          ReadState tbl (used_resource u) k = Some (firstState u)).
Proof.
  intros Hus. destruct (inject_usages_ok tbl us Hus []) as (per & Hrun & Hper).
  unfold InjectBarriers. rewrite Hrun. simpl. split.
  - intros [= Hnil] u k Hu Hk.
    apply list_elem_of_lookup in Hu as [i Hi].
    destruct (Forall2_lookup_l _ _ _ _ _ Hper Hi) as (bs & Hbs & [_ Hcount]).
    assert (bs = []) as ->.
    { destruct bs as [|b bs]; [done|]. exfalso.
      assert (b ∈ concat per) as Hb.
      { apply list_elem_of_In, in_concat. exists (b :: bs). split.
        - apply list_elem_of_In, list_elem_of_lookup. eauto.
        - left. done. }
      rewrite Hnil in Hb. by apply elem_of_nil in Hb. }
    assert (is_Some (ReadState tbl (used_resource u) k)) as [st Hst].
    { apply ReadState_is_Some. destruct Hk as [[_ ?]|[Hne ->]]; [done|].
      rewrite Forall_forall in Hus.
      destruct (Hus u) as (n & Hn & [?|?]); [|done|eauto].
      apply list_elem_of_lookup. eauto. }
    specialize (Hcount k st Hk Hst). rewrite Hst.
    destruct (decide (st = firstState u)) as [->|]; [done|]. done.
  - intros Hall. f_equal.
    assert (Forall (λ bs, bs = []) per) as Hnil.
    { apply Forall_forall. intros bs Hbs.
      apply list_elem_of_lookup in Hbs as [i Hi].
      destruct (Forall2_lookup_r _ _ _ _ _ Hper Hi) as (u & Hu & [Hin _]).
      destruct bs as [|b bs]; [done|]. exfalso.
      destruct (Hin b) as (_ & Hcov & Hread & Hafter & Hne); [left|].
      rewrite (Hall u (subResource b)) in Hread; [|by eapply list_elem_of_lookup_2|done].
      congruence. }
    clear -Hnil. induction Hnil as [|bs per -> _ IH]; [done|]. simpl. exact IH.
Qed.

(** ** Advancing the state table, continued *)

Lemma table_ext (t1 t2 : ResourceStateTable) :
  (∀ r, GetNumSubresources t1 r = GetNumSubresources t2 r) →
  (∀ r k, ReadState t1 r k = ReadState t2 r k) →
  t1 = t2.
Proof.
  intros Hnum Hread. apply map_eq. intros r.
  specialize (Hnum r). pose proof (Hread r) as Hr.
  unfold GetNumSubresources, ReadState in *.
  destruct (t1 !! r) as [l1|], (t2 !! r) as [l2|]; simpl in *; try done.
  f_equal. apply list_eq. intros i. specialize (Hr (N.of_nat i)).
  by rewrite Nat2N.id in Hr.
Qed.

Lemma update_usage_closed tbl u :
  update_usage tbl u =
    l ← tbl !! used_resource u; l' ← recorded_states u l;
    Some (<[used_resource u := l']> tbl).
Proof.
  unfold update_usage, recorded_states.
  destruct (decide (subresource u = ALL_SUBRESOURCES)) as [Hall|Hone].
  - unfold GetNumSubresources. destruct (tbl !! used_resource u) as [l|] eqn:Hl;
      simpl; [|done].
    destruct (record_range (used_resource u) (lastState u)
                (subresource_range (N.of_nat (length l))) tbl (N.of_nat (length l)))
      as (tbl' & -> & Hnum & Hread).
    { unfold GetNumSubresources. by rewrite Hl. }
    { intros k. by rewrite elem_of_subresource_range. }
    f_equal. apply table_ext.
    + intros r. rewrite Hnum. unfold GetNumSubresources.
      destruct (decide (r = used_resource u)) as [->|Hne].
      * rewrite lookup_insert_eq, Hl. simpl. by rewrite length_replicate.
      * by rewrite lookup_insert_ne.
    + intros r k. rewrite Hread. unfold ReadState.
      destruct (decide (r = used_resource u)) as [->|Hne].
      * rewrite lookup_insert_eq, Hl. simpl.
        destruct (decide (k < N.of_nat (length l))) as [Hk|Hk].
        -- rewrite decide_True by (by rewrite elem_of_subresource_range).
           symmetry. apply lookup_replicate_2. lia.
        -- rewrite decide_False by (rewrite elem_of_subresource_range; tauto).
           rewrite lookup_ge_None_2 by lia. symmetry.
           apply lookup_replicate_None. lia.
      * rewrite lookup_insert_ne by done.
        by rewrite decide_False by (intros [? _]; done).
  - unfold RecordState. destruct (tbl !! used_resource u) as [l|]; simpl; [|done].
    by destruct (decide (N.to_nat (subresource u) < length l)%nat).
Qed.

(** X5. Recording one usage record replaces the state list of its resource
    by as many copies of the last state under the all-subresources token, by
    the list with the named entry overwritten otherwise, and touches no other
    resource; it fails when the resource is unknown or has no such
    subresource. *)
Theorem UpdateResourceStates_single tbl u :
  UpdateResourceStates tbl [u] =
    l ← tbl !! used_resource u; l' ← recorded_states u l;
    Some (<[used_resource u := l']> tbl).
Proof.
  unfold UpdateResourceStates. simpl. rewrite update_usage_closed.
  destruct (tbl !! used_resource u) as [l|]; simpl; [|done].
  by destruct (recorded_states u l).
Qed.

Lemma update_usage_Some_in_range tbl u tbl' :
  update_usage tbl u = Some tbl' → usage_in_range tbl u.
Proof.
  rewrite update_usage_closed. unfold usage_in_range, GetNumSubresources, recorded_states.
  destruct (tbl !! used_resource u) as [l|]; simpl; [|done].
  intros H. eexists; split; [done|].
  destruct (decide (subresource u = ALL_SUBRESOURCES)); [by left|].
  destruct (decide (N.to_nat (subresource u) < length l)%nat); [right; lia | done].
Qed.

Lemma names_pair_covers tbl u r k :
  is_Some (ReadState tbl r k) → names_pair u r k ↔ covers_pair tbl u r k.
Proof.
  intros Hk%ReadState_is_Some. unfold names_pair, covers_pair, covers. split.
  - intros [<- [Hall|<-]]; split; try done.
    + by left.
    + destruct (decide (subresource u = ALL_SUBRESOURCES)); [by left | by right].
  - intros [<- [[Hall _]|[_ ->]]]; split; auto.
Qed.

(** The state of every subresource after the whole list has been recorded. *)
Lemma update_usages_reads us :
  ∀ tbl tbl',
    UpdateResourceStates tbl us = Some tbl' →
    (∀ r, GetNumSubresources tbl' r = GetNumSubresources tbl r) ∧
    (∀ r k, ReadState tbl' r k = state_after us r k <$> ReadState tbl r k).
Proof.
  unfold UpdateResourceStates, state_after.
  induction us as [|u us IH]; intros tbl tbl'; simpl.
  - intros [= <-]. split; [done|]. intros r k. by destruct (ReadState tbl r k).
  - destruct (update_usage tbl u) as [tbl1|] eqn:Hu; simpl; [|done]. intros Hrest.
    destruct (update_usage_ok tbl u (update_usage_Some_in_range _ _ _ Hu))
      as (tbl1' & Hu' & Hnum1 & Hset1 & Hkeep1).
    assert (tbl1' = tbl1) as -> by congruence.
    destruct (IH tbl1 tbl' Hrest) as [Hnum Hread].
    split; [intros r; by rewrite Hnum, Hnum1|].
    intros r k. rewrite Hread.
    destruct (ReadState tbl r k) as [st|] eqn:Hst.
    + destruct (decide (names_pair u r k)) as [Hn|Hn].
      * rewrite (Hset1 r k); [done|]. apply names_pair_covers; [by rewrite Hst | done].
      * rewrite (Hkeep1 r k), Hst; [done|].
        intros Hc. apply Hn. eapply names_pair_covers; [by rewrite Hst | done].
    + assert (ReadState tbl1 r k = None) as ->; [|done].
      destruct (ReadState tbl1 r k) eqn:H1; [|done].
      assert (is_Some (ReadState tbl r k)) as [? ?]; [|congruence].
      apply ReadState_is_Some. setoid_rewrite <- Hnum1.
      apply ReadState_is_Some. by rewrite H1.
Qed.

Lemma state_after_snoc us u r k st :
  state_after (us ++ [u]) r k st =
    if decide (names_pair u r k) then lastState u else state_after us r k st.
Proof. unfold state_after. by rewrite foldl_app. Qed.

Lemma state_after_idemp us r k st :
  state_after us r k (state_after us r k st) = state_after us r k st.
Proof.
  induction us as [|u us IH] using rev_ind; [done|].
  rewrite !state_after_snoc. by destruct (decide (names_pair u r k)).
Qed.

Lemma UpdateResourceStates_Some_in_range us :
  ∀ tbl tbl',
    UpdateResourceStates tbl us = Some tbl' → Forall (usage_in_range tbl) us.
Proof.
  unfold UpdateResourceStates.
  induction us as [|u us IH]; intros tbl tbl'; simpl; [constructor|].
  destruct (update_usage tbl u) as [tbl1|] eqn:Hu; simpl; [|done]. intros Hrest.
  pose proof (update_usage_Some_in_range _ _ _ Hu) as Hin.
  constructor; [done|].
  destruct (update_usage_ok tbl u Hin) as (tbl1' & Hu' & Hnum1 & _).
  assert (tbl1' = tbl1) as -> by congruence.
  eapply Forall_impl; [exact (IH tbl1 tbl' Hrest)|].
  intros v. apply usage_in_range_ext. intros r. by rewrite Hnum1.
Qed.

Lemma UpdateResourceStates_in_range_Some us :
  ∀ tbl, Forall (usage_in_range tbl) us → is_Some (UpdateResourceStates tbl us).
Proof.
  unfold UpdateResourceStates.
  induction us as [|u us IH]; intros tbl Hus; simpl; [by eexists|].
  apply Forall_cons in Hus as [Hu Hus].
  destruct (update_usage_ok tbl u Hu) as (tbl1 & -> & Hnum1 & _). simpl.
  apply IH. eapply Forall_impl; [exact Hus|].
  intros v. by apply usage_in_range_ext.
Qed.

(** X6. Recording a usage list a second time changes nothing. *)
Theorem UpdateResourceStates_idempotent tbl us tbl' :
  UpdateResourceStates tbl us = Some tbl' →
  UpdateResourceStates tbl' us = Some tbl'.
Proof.
  intros Hrun.
  destruct (update_usages_reads us tbl tbl' Hrun) as [Hnum Hread].
  destruct (UpdateResourceStates_in_range_Some us tbl') as [tbl'' Hrun'].
  { eapply Forall_impl; [exact (UpdateResourceStates_Some_in_range us tbl tbl' Hrun)|].
    intros v. by apply usage_in_range_ext. }
  destruct (update_usages_reads us tbl' tbl'' Hrun') as [Hnum' Hread'].
  rewrite Hrun'. f_equal. apply table_ext; [done|].
  intros r k. rewrite Hread', Hread.
  destruct (ReadState tbl r k); simpl; [|done]. by rewrite state_after_idemp.
Qed.

Lemma update_usage_comm tbl u v :
  used_resource u ≠ used_resource v →
  (tbl1 ← update_usage tbl u; update_usage tbl1 v) =
  (tbl1 ← update_usage tbl v; update_usage tbl1 u).
Proof.
  intros Hne. rewrite (update_usage_closed tbl u), (update_usage_closed tbl v).
  destruct (tbl !! used_resource u) as [lu|] eqn:Hlu;
    destruct (tbl !! used_resource v) as [lv|] eqn:Hlv; simpl.
  - destruct (recorded_states u lu) as [lu'|] eqn:Hru;
      destruct (recorded_states v lv) as [lv'|] eqn:Hrv; simpl;
      rewrite ?update_usage_closed, ?lookup_insert_ne, ?Hlu, ?Hlv by done;
      simpl; rewrite ?Hru, ?Hrv; simpl; try done.
    f_equal. by apply insert_insert_ne.
  - destruct (recorded_states u lu) as [lu'|] eqn:Hru; simpl; [|done].
    by rewrite update_usage_closed, lookup_insert_ne, Hlv.
  - destruct (recorded_states v lv) as [lv'|] eqn:Hrv; simpl; [|done].
    by rewrite update_usage_closed, lookup_insert_ne, Hlu.
  - done.
Qed.

Lemma update_move_across u vs :
  (∀ v, v ∈ vs → used_resource u ≠ used_resource v) →
  ∀ tbl ws,
    for_each update_usage tbl (u :: vs ++ ws) =
    for_each update_usage tbl (vs ++ u :: ws).
Proof.
  induction vs as [|v vs IH]; intros Hdisj tbl ws; [done|].
  assert (Hne : used_resource u ≠ used_resource v) by (apply Hdisj; left).
  assert (Hrest : ∀ w, w ∈ vs → used_resource u ≠ used_resource w)
    by (intros w Hw; apply Hdisj; by right).
  pose proof (update_usage_comm tbl u v Hne) as Hc. simpl.
  destruct (update_usage tbl u) as [tu|] eqn:Hu;
    destruct (update_usage tbl v) as [tv|] eqn:Hv; simpl in *.
  - rewrite <- (IH Hrest tv ws). simpl. by rewrite Hc.
  - by rewrite Hc.
  - rewrite <- (IH Hrest tv ws). simpl. by rewrite <- Hc.
  - done.
Qed.

(** X7. Usage lists without a common resource can be recorded in either
    order: the table, or the failure, is the same. *)
Theorem UpdateResourceStates_disjoint_comm tbl us vs :
  disjoint_resources us vs →
  UpdateResourceStates tbl (us ++ vs) = UpdateResourceStates tbl (vs ++ us).
Proof.
  unfold UpdateResourceStates, disjoint_resources. revert tbl.
  induction us as [|u us IH]; intros tbl Hdisj; simpl.
  - by rewrite app_nil_r.
  - rewrite <- update_move_across by (intros v Hv; apply Hdisj; [left | done]).
    simpl. destruct (update_usage tbl u) as [tbl1|]; simpl; [|done].
    apply IH. intros u' v Hu' Hv. apply Hdisj; [by right | done].
Qed.

(** X3. Once a usage list has been recorded, a record on the resource and
    subresource of its last record whose first state is the last state that
    record left needs no barrier. *)
Theorem InjectBarriers_after_update tbl us u tbl' v :
  UpdateResourceStates tbl (us ++ [u]) = Some tbl' →
  used_resource v = used_resource u → subresource v = subresource u →
  firstState v = lastState u →
  InjectBarriers tbl' [v] = Some [].
Proof.
  intros Hrun Hres Hsub Hfirst.
  destruct (update_usages_reads _ _ _ Hrun) as [Hnum Hread].
  pose proof (UpdateResourceStates_Some_in_range _ _ _ Hrun) as Hin.
  apply Forall_app in Hin as [_ Hu]. rewrite Forall_singleton in Hu.
  assert (Hv : usage_in_range tbl' v).
  { unfold usage_in_range in *. rewrite Hnum, Hres, Hsub. exact Hu. }
  apply InjectBarriers_none_needed; [by rewrite Forall_singleton|].
  intros v' k ->%list_elem_of_singleton Hk.
  assert (is_Some (ReadState tbl (used_resource v) k)) as [st Hst].
  { apply ReadState_is_Some. setoid_rewrite <- Hnum. apply ReadState_is_Some.
    destruct Hk as [[_ ?]|[Hne ->]]; [by apply ReadState_is_Some|].
    destruct Hv as (n & Hn & [?|?]); [done|]. apply ReadState_is_Some. eauto. }
  rewrite Hread, Hst. simpl. rewrite state_after_snoc, decide_True; [by rewrite Hfirst|].
  split; [done|]. rewrite <- Hsub.
  destruct Hk as [[? _]|[_ ->]]; [by left | by right].
Qed.

Lemma inject_usage_reads tbl bs u u' :
  same_barrier_inputs u u' → inject_usage tbl bs u = inject_usage tbl bs u'.
Proof.
  unfold same_barrier_inputs. intros (Hr & Hs & Hf).
  unfold inject_usage. by rewrite Hr, Hs, Hf.
Qed.

(** X4. [InjectBarriers] looks at the resource, the subresource and the
    first state of a record only: lists that agree on these get the same
    result. *)
Theorem InjectBarriers_reads_only tbl us us' :
  Forall2 same_barrier_inputs us us' →
  InjectBarriers tbl us = InjectBarriers tbl us'.
Proof.
  unfold InjectBarriers. intros Hsame. generalize (@nil ResourceBarrier).
  induction Hsame as [|u u' us us' Hu _ IH]; intros bs; simpl; [done|].
  rewrite (inject_usage_reads tbl bs u u' Hu).
  destruct (inject_usage tbl bs u'); simpl; [apply IH | done].
Qed.

Lemma update_usage_reads tbl u u' :
  same_update_inputs u u' → update_usage tbl u = update_usage tbl u'.
Proof.
  unfold same_update_inputs. intros (Hr & Hs & Hl).
  unfold update_usage. by rewrite Hr, Hs, Hl.
Qed.

(** X8. [UpdateResourceStates] looks at the resource, the subresource and
    the last state of a record only. *)
Theorem UpdateResourceStates_reads_only us us' :
  Forall2 same_update_inputs us us' →
  ∀ tbl, UpdateResourceStates tbl us = UpdateResourceStates tbl us'.
Proof.
  unfold UpdateResourceStates.
  induction 1 as [|u u' us us' Hu _ IH]; intros tbl; simpl; [done|].
  rewrite (update_usage_reads tbl u u' Hu).
  destruct (update_usage tbl u'); simpl; [apply IH | done].
Qed.

(** ** The parallel-compatibility walk, continued *)

(** X9. The walk is symmetric in its two lists. *)
Theorem CanExecuteParallel_sym l1 :
  ∀ l2, CanExecuteParallel l1 l2 = CanExecuteParallel l2 l1.
Proof.
  induction l1 as [|a l1 IH1]; intros l2.
  { by rewrite CanExecuteParallel_nil_l, CanExecuteParallel_nil_r. }
  induction l2 as [|b l2 IH2].
  { by rewrite CanExecuteParallel_nil_l, CanExecuteParallel_nil_r. }
  rewrite !CanExecuteParallel_cons. unfold PtrLess, PtrGreater.
  destruct (used_resource a <? used_resource b) eqn:Hab;
    destruct (used_resource b <? used_resource a) eqn:Hba.
  - apply N.ltb_lt in Hab, Hba. lia.
  - apply IH1.
  - apply IH2.
  - rewrite <- IH1.
    replace (bool_decide (firstState b ≠ firstState a))
      with (bool_decide (firstState a ≠ firstState b))
      by (apply bool_decide_ext; split; intros ? ?; congruence).
    by destruct (bool_decide _), (multipleUse a), (multipleUse b).
Qed.

(** X10. A usage list is compatible with itself exactly when none of its
    records is marked [multipleUse]. *)
Theorem CanExecuteParallel_self l :
  CanExecuteParallel l l = true ↔ Forall (λ u, multipleUse u = false) l.
Proof.
  induction l as [|u l IH]; [done|].
  rewrite CanExecuteParallel_cons, Forall_cons. unfold PtrLess, PtrGreater.
  rewrite N.ltb_irrefl. rewrite (bool_decide_eq_false_2 (firstState u ≠ firstState u))
    by auto. simpl.
  destruct (multipleUse u); simpl; [split; [done | by intros [? _]]|].
  rewrite IH. tauto.
Qed.

(** X11. On two lists in strictly increasing order of resource identity,
    one record per resource, the walk answers [true] exactly when no record
    of the first and record of the second conflict. *)
Theorem CanExecuteParallel_exact_on_unique l1 l2 :
  strictly_sorted_by_resource l1 → strictly_sorted_by_resource l2 →
  (CanExecuteParallel l1 l2 = true ↔
   ∀ a b, a ∈ l1 → b ∈ l2 → ¬ conflicting a b).
Proof.
  intros H1 H2. split.
  - by apply CanExecuteParallel_sound_unique.
  - apply CanExecuteParallel_no_conflict.
Qed.

(** X12. [CanExecuteParallel] looks at the resource, the first state and
    [multipleUse] of a record only: the subresource and the last state play
    no part. *)
Theorem CanExecuteParallel_reads_only l1 l1' :
  Forall2 same_parallel_inputs l1 l1' →
  ∀ l2 l2', Forall2 same_parallel_inputs l2 l2' →
            CanExecuteParallel l1 l2 = CanExecuteParallel l1' l2'.
Proof.
  unfold same_parallel_inputs.
  induction 1 as [|a a' l1 l1' (Hra & Hfa & Hma) Hl1 IH1].
  { intros l2 l2' _. by rewrite !CanExecuteParallel_nil_l. }
  induction 1 as [|b b' l2 l2' (Hrb & Hfb & Hmb) Hl2 IH2].
  { by rewrite !CanExecuteParallel_nil_r. }
  rewrite !CanExecuteParallel_cons. rewrite <- Hra, <- Hrb, <- Hfa, <- Hfb, <- Hma, <- Hmb.
  destruct (PtrLess _ _).
  { apply IH1. constructor; [by split_and!|done]. }
  destruct (PtrGreater _ _); [exact IH2|].
  destruct (_ || _ || _); [done|]. by apply IH1.
Qed.

(** ** The upload heap, continued *)

(** X14. [UploadToResource] returns exactly when the upload fits the target
    and the device creates the staging buffer; whenever it throws instead,
    the heap and the command list are as they were. *)
Theorem UploadToResource_returns_or_unchanged heap cmdList target data size :
  ((UploadToResource heap cmdList target data size).1.1 = Returned ↔
   size ≤ GetSize target ∧
   api_native_create (m_graphicsApi heap) (Buffer size) = 0%Z) ∧
  ((UploadToResource heap cmdList target data size).1.1 ≠ Returned →
   (UploadToResource heap cmdList target data size).1.2 = heap ∧
   (UploadToResource heap cmdList target data size).2 = cmdList).
Proof.
  unfold UploadToResource, CreateCommittedResource.
  destruct (decide (GetSize target < size)) as [Hlt|Hge]; simpl.
  { split; [|done]. split; [done | intros [? _]; lia]. }
  destruct (decide (api_native_create (m_graphicsApi heap) (Buffer size) = 0%Z))
    as [Hok|Hbad]; simpl.
  - split; [|done]. split; [intros _; split; [lia | done] | done].
  - split; [|done]. split; [done | intros [_ ?]; done].
Qed.

Lemma UploadToResource_Returned heap cmdList target data size heap' cmdList' :
  UploadToResource heap cmdList target data size = (Returned, heap', cmdList') →
  let stagedRes := N.of_nat (length (api_resources (m_graphicsApi heap))) in
  size ≤ GetSize target ∧
  api_resources (m_graphicsApi heap') =
    api_resources (m_graphicsApi heap) ++
      [mkDeviceResource UPLOAD NONE (Buffer size) COPY_DEST
                        (take (N.to_nat size) data)] ∧
  m_stagedResources heap' =
    m_stagedResources heap ++
      [mkGenericResource (mkDescriptorReference None None None) stagedRes true] ∧
  cmdList' =
    cmdList ++
      [CmdResourceBarrier
         (mkTransitionBarrier stagedRes COPY_DEST COPY_SOURCE ALL_SUBRESOURCES NORMAL);
       CmdRegisterResourceTransition (lb_resource target) ALL_SUBRESOURCES COPY_DEST;
       CmdCopyBuffer (lb_resource target) 0 stagedRes 0 size].
Proof.
  unfold UploadToResource, CreateCommittedResource.
  destruct (decide (GetSize target < size)) as [Hlt|Hge]; [done|].
  destruct (decide (api_native_create (m_graphicsApi heap) (Buffer size) = 0%Z));
    [|done].
  intros [= <- <-]. simpl. split_and!; [lia | | done | done].
  unfold map_and_copy. simpl. rewrite Nat2N.id.
  rewrite alter_app_r_alt by lia. by rewrite Nat.sub_diag.
Qed.

Lemma UploadToResource_Thrown heap cmdList target data size e heap' cmdList' :
  UploadToResource heap cmdList target data size = (Thrown e, heap', cmdList') →
  heap' = heap ∧ cmdList' = cmdList.
Proof.
  unfold UploadToResource, CreateCommittedResource.
  destruct (decide (GetSize target < size)); [by intros [= _ <- <-]|].
  destruct (decide (api_native_create (m_graphicsApi heap) (Buffer size) = 0%Z));
    [done | by intros [= _ <- <-]].
Qed.

(** X15. When [UploadToResource] returns, one resident staging resource has
    been added behind the ones there were: an upload buffer of [size] bytes
    created in [COPY_DEST] that holds the first [size] bytes of the data. The
    command list has grown by the barrier taking that buffer from [COPY_DEST]
    to [COPY_SOURCE], the transition of the target and a copy of [size] bytes
    from offset [0] of the buffer to offset [0] of the target, which the
    target is large enough to take. *)
Theorem UploadToResource_copy_in_bounds heap cmdList target data size heap' cmdList' :
  UploadToResource heap cmdList target data size = (Returned, heap', cmdList') →
  ∃ staged,
    m_stagedResources heap' = m_stagedResources heap ++ [staged] ∧
    gr_resident staged = true ∧
    api_resources (m_graphicsApi heap') !! N.to_nat (gr_resource staged) =
      Some (mkDeviceResource UPLOAD NONE (Buffer size) COPY_DEST
                             (take (N.to_nat size) data)) ∧
    cmdList' =
      cmdList ++
        [CmdResourceBarrier
           (mkTransitionBarrier (gr_resource staged) COPY_DEST COPY_SOURCE
                                ALL_SUBRESOURCES NORMAL);
         CmdRegisterResourceTransition (lb_resource target) ALL_SUBRESOURCES
                                       COPY_DEST;
         CmdCopyBuffer (lb_resource target) 0 (gr_resource staged) 0 size] ∧
    0 + size ≤ GetSize target.
Proof.
  intros (Hfit & Hapi & Hstaged & Hcmd)%UploadToResource_Returned.
  eexists. split_and!; [exact Hstaged | done | | exact Hcmd | lia].
  simpl. rewrite Hapi, Nat2N.id. by rewrite lookup_app_r, Nat.sub_diag.
Qed.

(** X16. [UploadToResource] keeps the staged resources distinct resources
    of the device; it never drops a staged resource, and never alters the
    device resource behind one. *)
Theorem UploadToResource_keeps_staged heap cmdList target data size :
  staged_wf heap →
  let heap' := (UploadToResource heap cmdList target data size).1.2 in
  staged_wf heap' ∧
  m_stagedResources heap `prefix_of` m_stagedResources heap' ∧
  ∀ g, g ∈ m_stagedResources heap →
       api_resources (m_graphicsApi heap') !! N.to_nat (gr_resource g) =
       api_resources (m_graphicsApi heap) !! N.to_nat (gr_resource g).
Proof.
  intros [Hnd Hlive].
  destruct (UploadToResource heap cmdList target data size) as [[outcome heap'] cmdList']
    eqn:Hrun. simpl.
  destruct outcome as [|e].
  - apply UploadToResource_Returned in Hrun as (_ & Hapi & Hstaged & _).
    split_and!.
    + split.
      * rewrite Hstaged, fmap_app. apply NoDup_app. split_and!; [done | |].
        -- intros p (g & -> & Hg)%list_elem_of_fmap Hq.
           simpl in Hq. apply list_elem_of_singleton in Hq.
           specialize (Hlive g Hg). rewrite Hq in Hlive. lia.
        -- apply NoDup_singleton.
      * rewrite Hstaged, Hapi, length_app. simpl.
        intros g [Hg|Hg]%elem_of_app.
        -- specialize (Hlive g Hg). lia.
        -- apply list_elem_of_singleton in Hg as ->. simpl. lia.
    + rewrite Hstaged. by apply prefix_app_r.
    + intros g Hg. rewrite Hapi. apply lookup_app_l. by apply Hlive.
  - apply UploadToResource_Thrown in Hrun as [-> _]. by split_and!.
Qed.

(** ** The critical buffer heap, continued *)

(** X17. [CriticalBufferHeap::Allocate] fails with the error of the device
    exactly when the native call fails; otherwise the pointer it returns
    designates a resource on the default heap, in state [COMMON], with the
    description asked for, [m_resources] is untouched, and
    [ReleaseUnderlying] leaves that resource where it is. *)
Theorem CriticalBufferHeap_Allocate_spec heap desc :
  match CriticalBufferHeap_Allocate heap desc with
  | inr (res, heap') =>
      api_native_create (cbh_graphicsApi heap) desc = 0%Z ∧
      api_resources (cbh_graphicsApi heap') !! N.to_nat res =
        Some (mkDeviceResource DEFAULT NONE desc COMMON []) ∧
      cbh_resources heap' = cbh_resources heap ∧
      ∀ owner,
        api_resources
          (cbh_graphicsApi (CriticalBufferHeap_ReleaseUnderlying heap' owner))
          !! N.to_nat res =
        Some (mkDeviceResource DEFAULT NONE desc COMMON [])
  | inl e =>
      e = DeviceError (api_native_create (cbh_graphicsApi heap) desc) ∧
      api_native_create (cbh_graphicsApi heap) desc ≠ 0%Z
  end.
Proof.
  unfold CriticalBufferHeap_Allocate, CreateCommittedResource.
  destruct (decide (api_native_create (cbh_graphicsApi heap) desc = 0%Z)); [|done].
  simpl. rewrite Nat2N.id, lookup_app_r, Nat.sub_diag by lia. done.
Qed.

(** ** The back-buffer heap *)

Lemma foldl_wrap_back_buffer swapChain heap ks :
  ∀ bufs dev,
    foldl (wrap_back_buffer swapChain heap) (bufs, dev) ks =
      (bufs ++
         ((λ i, mkTexture2D
                  (mkGenericResource
                     (mkDescriptorReference None (handle_cpuAddress (At heap i))
                                            (handle_gpuAddress (At heap i)))
                     (GetBuffer swapChain i) true)
                  false) <$> ks),
       mkViewDevice (native_create_heap dev) (native_heap_at dev)
         (render_target_views dev ++
            ((λ i, (GetBuffer swapChain i, handle_cpuAddress (At heap i))) <$> ks))).
Proof.
  induction ks as [|k ks IH]; intros bufs dev; simpl.
  - rewrite !app_nil_r. by destruct dev.
  - unfold wrap_back_buffer at 2. simpl. rewrite IH. simpl.
    by rewrite <- !app_assoc.
Qed.

Lemma subresource_range_lookup n i :
  subresource_range n !! i =
    if decide (N.of_nat i < n) then Some (N.of_nat i) else None.
Proof.
  unfold subresource_range. rewrite list_lookup_fmap.
  destruct (decide (N.of_nat i < n)) as [Hi|Hi].
  - rewrite lookup_seq_lt by lia. done.
  - rewrite lookup_seq_ge by lia. done.
Qed.

(** X18. In a back-buffer heap that has been constructed, the descriptor
    heap is a render-target heap, not shader visible, with one slot per
    buffer of the swap chain; [GetBackBuffer] on an index below the number of
    buffers gives the resident texture that wraps the buffer of that index
    with the handle of the slot of that index, no descriptor deleter and no
    ownership of the buffer; on any other index it fails. *)
Theorem GetBackBuffer_after_construction dev swapChain heap dev' index :
  BackBufferHeap_new dev swapChain = inr (heap, dev') →
  heap_desc (m_descriptorHeap heap) =
    mkDescriptorHeapDesc false (numBuffers swapChain) RTV ∧
  GetBackBuffer heap index =
    if decide (index < numBuffers swapChain) then
      Some (mkTexture2D
              (mkGenericResource
                 (mkDescriptorReference
                    None
                    (handle_cpuAddress (At (m_descriptorHeap heap) index))
                    (handle_gpuAddress (At (m_descriptorHeap heap) index)))
                 (GetBuffer swapChain index) true)
              false)
    else None.
Proof.
  unfold BackBufferHeap_new, CreateDescriptorHeap, GetBackBuffer.
  destruct (decide (native_create_heap dev _ = 0%Z)); [|done].
  rewrite foldl_wrap_back_buffer. intros [= <- <-]. simpl. split; [done|].
  rewrite list_lookup_fmap, subresource_range_lookup, N2Nat.id.
  by destruct (decide (index < numBuffers swapChain)).
Qed.

(** X19. The constructor of [BackBufferHeap] fails exactly when the native
    creation of the descriptor heap fails; otherwise it holds as many back
    buffers as the swap chain has buffers and has created one render-target
    view per buffer, in order, each at the CPU address of the slot of its
    index. *)
Theorem BackBufferHeap_new_views dev swapChain :
  match BackBufferHeap_new dev swapChain with
  | inr (heap, dev') =>
      native_create_heap dev
        (mkDescriptorHeapDesc false (numBuffers swapChain) RTV) = 0%Z ∧
      length (m_backBuffers heap) = N.to_nat (numBuffers swapChain) ∧
      render_target_views dev' =
        render_target_views dev ++
          ((λ i, (GetBuffer swapChain i,
                  handle_cpuAddress (At (m_descriptorHeap heap) i)))
             <$> subresource_range (numBuffers swapChain))
  | inl e =>
      native_create_heap dev
        (mkDescriptorHeapDesc false (numBuffers swapChain) RTV) ≠ 0%Z
  end.
Proof.
  unfold BackBufferHeap_new, CreateDescriptorHeap.
  destruct (decide (native_create_heap dev _ = 0%Z)) as [Hok|Hbad]; [|done].
  rewrite foldl_wrap_back_buffer. simpl. split_and!; [done | | done].
  unfold subresource_range. by rewrite !length_fmap, length_seq.
Qed.

(** ** The further theorems at the scenarios *)

Lemma InjectBarriers_batch_sorted_witness :
  InjectBarriers fanout_table fanout_usages = Some fanout_barrier_list ∧
  StronglySorted (λ a b, subResource a < subResource b) fanout_barrier_list.
Proof.
  assert (H : InjectBarriers fanout_table fanout_usages = Some fanout_barrier_list)
    by (vm_compute; reflexivity).
  split; [exact H|].
  exact (InjectBarriers_batch_sorted fanout_table _ fanout_barrier_list H).
Defined.

Lemma InjectBarriers_after_update_witness :
  UpdateResourceStates chain_table ([] ++ chain_usages_A) = Some chain_table_after_A ∧
  InjectBarriers chain_table_after_A [chain_usage_reader] = Some [].
Proof.
  assert (H : UpdateResourceStates chain_table ([] ++ chain_usages_A) =
              Some chain_table_after_A) by (vm_compute; reflexivity).
  split; [exact H|].
  exact (InjectBarriers_after_update chain_table [] _ chain_table_after_A
           chain_usage_reader H eq_refl eq_refl eq_refl).
Defined.

Lemma InjectBarriers_reads_only_witness :
  Forall2 same_barrier_inputs fanout_usages fanout_usages_other_last ∧
  InjectBarriers fanout_table fanout_usages =
  InjectBarriers fanout_table fanout_usages_other_last.
Proof.
  assert (H : Forall2 same_barrier_inputs fanout_usages fanout_usages_other_last)
    by (repeat constructor).
  split; [exact H|].
  exact (InjectBarriers_reads_only fanout_table _ _ H).
Defined.

Lemma UpdateResourceStates_idempotent_witness :
  UpdateResourceStates fanout_table fanout_usages = Some fanout_table_after ∧
  UpdateResourceStates fanout_table_after fanout_usages = Some fanout_table_after.
Proof.
  assert (H : UpdateResourceStates fanout_table fanout_usages =
              Some fanout_table_after) by (vm_compute; reflexivity).
  split; [exact H|].
  exact (UpdateResourceStates_idempotent fanout_table fanout_usages
           fanout_table_after H).
Defined.

Lemma UpdateResourceStates_disjoint_comm_witness :
  disjoint_resources chain_usages_A fanout_usages ∧
  UpdateResourceStates (chain_table ∪ fanout_table) (chain_usages_A ++ fanout_usages) =
  UpdateResourceStates (chain_table ∪ fanout_table) (fanout_usages ++ chain_usages_A).
Proof.
  assert (H : disjoint_resources chain_usages_A fanout_usages).
  { intros u v ->%list_elem_of_singleton ->%list_elem_of_singleton. simpl. lia. }
  split; [exact H|].
  exact (UpdateResourceStates_disjoint_comm (chain_table ∪ fanout_table) _ _ H).
Defined.

Lemma UpdateResourceStates_reads_only_witness :
  Forall2 same_update_inputs fanout_usages fanout_usages_other_first ∧
  UpdateResourceStates fanout_table fanout_usages =
  UpdateResourceStates fanout_table fanout_usages_other_first.
Proof.
  assert (H : Forall2 same_update_inputs fanout_usages fanout_usages_other_first)
    by (repeat constructor).
  split; [exact H|].
  exact (UpdateResourceStates_reads_only _ _ H fanout_table).
Defined.

Lemma CanExecuteParallel_exact_on_unique_witness :
  strictly_sorted_by_resource unique_usages_A ∧
  strictly_sorted_by_resource unique_usages_B ∧
  (CanExecuteParallel unique_usages_A unique_usages_B = true ↔
   ∀ a b, a ∈ unique_usages_A → b ∈ unique_usages_B → ¬ conflicting a b).
Proof.
  assert (HA : strictly_sorted_by_resource unique_usages_A)
    by (repeat constructor).
  assert (HB : strictly_sorted_by_resource unique_usages_B)
    by (repeat constructor).
  split; [exact HA|]. split; [exact HB|].
  exact (CanExecuteParallel_exact_on_unique _ _ HA HB).
Defined.

Lemma CanExecuteParallel_reads_only_witness :
  Forall2 same_parallel_inputs chain_usages_A chain_usages_A_other_subresource ∧
  Forall2 same_parallel_inputs chain_usages_B chain_usages_B ∧
  CanExecuteParallel chain_usages_A chain_usages_B =
  CanExecuteParallel chain_usages_A_other_subresource chain_usages_B.
Proof.
  assert (HA : Forall2 same_parallel_inputs chain_usages_A
                       chain_usages_A_other_subresource) by (repeat constructor).
  assert (HB : Forall2 same_parallel_inputs chain_usages_B chain_usages_B)
    by (repeat constructor).
  split; [exact HA|]. split; [exact HB|].
  exact (CanExecuteParallel_reads_only _ _ HA _ _ HB).
Defined.

Lemma UploadToResource_copy_in_bounds_witness :
  UploadToResource fresh_heap [] large_buffer four_bytes 4 =
    (Returned, upload_heap_after, upload_commands_after) ∧
  ∃ staged,
    m_stagedResources upload_heap_after = m_stagedResources fresh_heap ++ [staged] ∧
    gr_resident staged = true ∧
    api_resources (m_graphicsApi upload_heap_after) !! N.to_nat (gr_resource staged) =
      Some (mkDeviceResource UPLOAD NONE (Buffer 4) COPY_DEST
                             (take (N.to_nat 4) four_bytes)) ∧
    upload_commands_after =
      [] ++
        [CmdResourceBarrier
           (mkTransitionBarrier (gr_resource staged) COPY_DEST COPY_SOURCE
                                ALL_SUBRESOURCES NORMAL);
         CmdRegisterResourceTransition (lb_resource large_buffer)
                                       ALL_SUBRESOURCES COPY_DEST;
         CmdCopyBuffer (lb_resource large_buffer) 0 (gr_resource staged) 0 4] ∧
    0 + 4 ≤ GetSize large_buffer.
Proof.
  assert (H : UploadToResource fresh_heap [] large_buffer four_bytes 4 =
              (Returned, upload_heap_after, upload_commands_after))
    by reflexivity.
  split; [exact H|].
  exact (UploadToResource_copy_in_bounds fresh_heap [] large_buffer four_bytes 4
           upload_heap_after upload_commands_after H).
Defined.

Lemma UploadToResource_keeps_staged_witness :
  staged_wf upload_heap_after ∧
  staged_wf
    (UploadToResource upload_heap_after upload_commands_after large_buffer
                      four_bytes 4).1.2 ∧
  m_stagedResources upload_heap_after `prefix_of`
    m_stagedResources
      (UploadToResource upload_heap_after upload_commands_after large_buffer
                        four_bytes 4).1.2 ∧
  ∀ g, g ∈ m_stagedResources upload_heap_after →
       api_resources
         (m_graphicsApi
            (UploadToResource upload_heap_after upload_commands_after large_buffer
                              four_bytes 4).1.2)
         !! N.to_nat (gr_resource g) =
       api_resources (m_graphicsApi upload_heap_after) !! N.to_nat (gr_resource g).
Proof.
  assert (H : staged_wf upload_heap_after).
  { split.
    - apply NoDup_singleton.
    - intros g ->%list_elem_of_singleton. simpl. lia. }
  split; [exact H|].
  exact (UploadToResource_keeps_staged upload_heap_after upload_commands_after
           large_buffer four_bytes 4 H).
Defined.

Lemma GetBackBuffer_after_construction_witness :
  BackBufferHeap_new plain_device two_buffers =
    inr (two_buffers_heap, plain_device_after) ∧
  GetBackBuffer two_buffers_heap 1 =
    Some (mkTexture2D
            (mkGenericResource (mkDescriptorReference None (Some 101) None) 11 true)
            false) ∧
  GetBackBuffer two_buffers_heap 2 = None.
Proof.
  assert (H : BackBufferHeap_new plain_device two_buffers =
              inr (two_buffers_heap, plain_device_after)) by reflexivity.
  split; [exact H|]. split.
  - exact (proj2 (GetBackBuffer_after_construction _ _ _ _ 1 H)).
  - exact (proj2 (GetBackBuffer_after_construction _ _ _ _ 2 H)).
Defined.
